(** * SwinIR tiled upscaling (modules/swinir_model.py)

    A shallow embedding of [upscale], [inference] and
    [UpscalerSwinIR.do_upscale] / [load_model], and the properties of the
    padding, tile scheduling and overlap-add accumulation they implement.

    Conventions.
    - Python integers are [Z]; [//] and [%] are [Z.div] and [Z.modulo]
      (both floor towards minus infinity, as Python does) guarded by the
      [ZeroDivisionError] Python raises on a zero divisor.
    - A torch tensor of rank 4 is its size together with a total indexing
      function; slicing, [flip], [cat] and the in-place [add_] on a sliced
      view are index arithmetic on that function.
    - Floating point is not modelled: the sample type and its arithmetic are
      an interface ([Scalar]), and every fact of arithmetic a theorem relies
      on is one of its hypotheses.
    - Exceptions and the two observable effects the properties speak about
      (allocation of an accumulation buffer, invocation of the model) are
      threaded through a writer/error monad [M]. *)

From Stdlib Require Import ZArith List Lia Bool String Ascii QArith Qcanon Qround FinFun.
From Stdlib Require Import Sorted.
Import ListNotations.
Open Scope Z_scope.

(** ** Python exceptions the code can raise *)

Inductive exn : Type :=
| IndexError          (* too many indices for array *)
| ValueError          (* range() arg 3 must not be zero; unpacking *)
| ZeroDivisionError   (* integer division or modulo by zero *)
| AssertionError      (* "tile size should be a multiple of window_size" *)
| RuntimeError        (* torch: negative dimension, size mismatch in add_ *)
| ModelError.         (* anything the opaque model call raises *)

(** ** Observable effects *)

Definition shape4 : Type := (Z * Z * Z * Z)%type.

Inductive event : Type :=
| EvAlloc (s : shape4)    (* torch.zeros / torch.zeros_like *)
| EvModel (s : shape4).   (* model(in_patch), with the size of in_patch *)

(** ** The writer/error monad *)

Definition M (A : Type) : Type := (list event * (exn + A))%type.

Definition ret {A} (a : A) : M A := ([], inr a).

Definition raise {A} (e : exn) : M A := ([], inl e).

Definition log (ev : event) : M unit := ([ev], inr tt).

Definition bind {A B} (m : M A) (k : A -> M B) : M B :=
  match m with
  | (t, inl e) => (t, inl e)
  | (t, inr a) => let (t', r) := k a in (t ++ t', r)
  end.

Definition lift {A} (r : exn + A) : M A := ([], r).

Declare Scope monad_scope.
Delimit Scope monad_scope with monad.
Notation "x <- c ;; k" := (bind c (fun x => k))
  (at level 61, c at next level, right associativity) : monad_scope.
Notation "' p <- c ;; k" := (bind c (fun x => match x with p => k end))
  (at level 61, p pattern, c at next level, right associativity) : monad_scope.
Notation "c ;;; k" := (bind c (fun _ => k))
  (at level 61, right associativity) : monad_scope.
Open Scope monad_scope.

(** [for x in l: s = f(s, x)] *)
Fixpoint foldM {S X} (f : S -> X -> M S) (l : list X) (s : S) : M S :=
  match l with
  | [] => ret s
  | x :: l' => s' <- f s x ;; foldM f l' s'
  end.

Definition trace {A} (m : M A) : list event := fst m.
Definition outcome {A} (m : M A) : exn + A := snd m.

(** ** Python integer helpers *)

(** [a // b] *)
Definition py_floordiv (a b : Z) : exn + Z :=
  if b =? 0 then inl ZeroDivisionError else inr (a / b).

(** [a % b] *)
Definition py_mod (a b : Z) : exn + Z :=
  if b =? 0 then inl ZeroDivisionError else inr (a mod b).

(** [assert c] *)
Definition py_assert (c : bool) : M unit :=
  if c then ret tt else raise AssertionError.

(** [len(range(start, stop, step))] for a non-zero step. *)
Definition range_len (start stop step : Z) : Z :=
  if 0 <? step
  then (if start <? stop then (stop - start - 1) / step + 1 else 0)
  else (if stop <? start then (start - stop - 1) / (- step) + 1 else 0).

(** [list(range(start, stop, step))] *)
Definition py_range (start stop step : Z) : exn + list Z :=
  if step =? 0 then inl ValueError
  else inr (map (fun k => start + Z.of_nat k * step)
                (seq 0 (Z.to_nat (range_len start stop step)))).

(** Bounds of the slice [a:b] on an axis of length [len]
    (negative indices count from the end, both ends are clamped). *)
Definition slice_norm (i len : Z) : Z :=
  if i <? 0 then Z.max (i + len) 0 else Z.min i len.

Definition slice_len (a b len : Z) : Z :=
  Z.max 0 (slice_norm b len - slice_norm a len).

(** ** Scalars *)

Class Scalar (V : Type) : Type := {
  vzero : V;                 (* 0.0 *)
  vone : V;                  (* 1.0 *)
  vadd : V -> V -> V;        (* + *)
  vdiv : V -> V -> V;        (* / *)
  vltb : V -> V -> bool;     (* < *)
  of_u8 : Z -> V;            (* x / 255 of an 8-bit sample, as float *)
  vclamp01 : V -> V;         (* clamp_(0, 1) *)
  vquant : V -> Z            (* (x * 255.0).round().astype(uint8) *)
}.

(** ** Arrays *)

(** A numpy array (and a PIL image seen through [np.array] /
    [Image.fromarray]): its shape and its indexing function. *)
Record ndarray (A : Type) : Type := mk_nd {
  nd_shape : list Z;
  nd_get : list Z -> A
}.
Arguments mk_nd {A} _ _.
Arguments nd_shape {A} _.
Arguments nd_get {A} _ _.

(** A rank-4 torch tensor (batch, channel, row, column). *)
Record tensor (V : Type) : Type := mk_tensor {
  tb : Z; tc : Z; th : Z; tw : Z;
  tat : Z -> Z -> Z -> Z -> V
}.
Arguments mk_tensor {V} _ _ _ _ _.
Arguments tb {V} _.
Arguments tc {V} _.
Arguments th {V} _.
Arguments tw {V} _.
Arguments tat {V} _ _ _ _ _.

(** [t.size()] *)
Definition size {V} (t : tensor V) : shape4 := (tb t, tc t, th t, tw t).

(** The opaque model: a patch in, an upscaled patch or an exception out. *)
Definition Model (V : Type) : Type := tensor V -> exn + tensor V.

Section Tensors.
Context {V : Type} {SV : Scalar V}.

(** [torch.flip(t, [2])] *)
Definition flip2 (t : tensor V) : tensor V :=
  mk_tensor (tb t) (tc t) (th t) (tw t)
    (fun n c i j => tat t n c (th t - 1 - i) j).

(** [torch.flip(t, [3])] *)
Definition flip3 (t : tensor V) : tensor V :=
  mk_tensor (tb t) (tc t) (th t) (tw t)
    (fun n c i j => tat t n c i (tw t - 1 - j)).

(** [torch.cat([a, b], 2)]; the two operands agree on the other axes
    wherever the code calls it ([b] is a flip of [a]). *)
Definition cat2 (a b : tensor V) : tensor V :=
  mk_tensor (tb a) (tc a) (th a + th b) (tw a)
    (fun n c i j => if i <? th a then tat a n c i j else tat b n c (i - th a) j).

(** [torch.cat([a, b], 3)] *)
Definition cat3 (a b : tensor V) : tensor V :=
  mk_tensor (tb a) (tc a) (th a) (tw a + tw b)
    (fun n c i j => if j <? tw a then tat a n c i j else tat b n c i (j - tw a)).

(** [t[..., r0:r1, c0:c1]] *)
Definition slice23 (t : tensor V) (r0 r1 c0 c1 : Z) : tensor V :=
  mk_tensor (tb t) (tc t) (slice_len r0 r1 (th t)) (slice_len c0 c1 (tw t))
    (fun n c i j => tat t n c (i + slice_norm r0 (th t)) (j + slice_norm c0 (tw t))).

(** [t[:, :, :r1, :]] *)
Definition slice2_to (t : tensor V) (r1 : Z) : tensor V :=
  mk_tensor (tb t) (tc t) (slice_len 0 r1 (th t)) (tw t) (tat t).

(** [t[:, :, :, :c1]] *)
Definition slice3_to (t : tensor V) (c1 : Z) : tensor V :=
  mk_tensor (tb t) (tc t) (th t) (slice_len 0 c1 (tw t)) (tat t).

(** [torch.zeros(b, c, h, w)]: a negative dimension is a RuntimeError. *)
Definition zeros (b c h w : Z) : M (tensor V) :=
  if (b <? 0) || (c <? 0) || (h <? 0) || (w <? 0) then raise RuntimeError
  else log (EvAlloc (b, c, h, w)) ;;; ret (mk_tensor b c h w (fun _ _ _ _ => vzero)).

(** [torch.zeros_like(t, dtype=torch.half)].  The samples of every tensor
    are of the one scalar type, so the narrower type of the weight buffer
    is not told apart: its sums of ones are the scalar type's, which agree
    with a 16-bit float's as long as no more than 2048 tiles overlap. *)
Definition zeros_like (t : tensor V) : M (tensor V) :=
  log (EvAlloc (size t)) ;;;
  ret (mk_tensor (tb t) (tc t) (th t) (tw t) (fun _ _ _ _ => vzero)).

(** [torch.ones_like(t)] *)
Definition ones_like (t : tensor V) : tensor V :=
  mk_tensor (tb t) (tc t) (th t) (tw t) (fun _ _ _ _ => vone).

(** Broadcasting of an operand axis of length [d'] against a destination
    axis of length [d]: equal, or the operand axis has length 1. *)
Definition bcast_ok (d' d : Z) : bool := (d' =? d) || (d' =? 1).

(** Index read on an operand axis of length [d'] under broadcasting. *)
Definition bidx (d' k : Z) : Z := if d' =? 1 then 0 else k.

(** [p] read at a destination index, under broadcasting. *)
Definition tat_b (p : tensor V) (n c i j : Z) : V :=
  tat p (bidx (tb p) n) (bidx (tc p) c) (bidx (th p) i) (bidx (tw p) j).

(** [t[..., r0:r1, c0:c1].add_(p)]: in-place addition on a view of [t];
    [p] must broadcast to the view, else torch raises RuntimeError. *)
Definition add_region (t : tensor V) (r0 r1 c0 c1 : Z) (p : tensor V)
  : exn + tensor V :=
  let rs := slice_norm r0 (th t) in
  let re := slice_norm r1 (th t) in
  let cs := slice_norm c0 (tw t) in
  let ce := slice_norm c1 (tw t) in
  if bcast_ok (tb p) (tb t) && bcast_ok (tc p) (tc t)
     && bcast_ok (th p) (Z.max 0 (re - rs)) && bcast_ok (tw p) (Z.max 0 (ce - cs))
  then inr (mk_tensor (tb t) (tc t) (th t) (tw t)
              (fun n c i j =>
                 if (rs <=? i) && (i <? re) && (cs <=? j) && (j <? ce)
                 then vadd (tat t n c i j) (tat_b p n c (i - rs) (j - cs))
                 else tat t n c i j))
  else inl RuntimeError.

(** [E.div_(W)]; [W] is [zeros_like(E)], so the sizes agree. *)
Definition div_ (E W : tensor V) : tensor V :=
  mk_tensor (tb E) (tc E) (th E) (tw E)
    (fun n c i j => vdiv (tat E n c i j) (tat W n c i j)).

(** ** [inference] *)

(** The body of the two nested loops, for one tile origin. *)
Definition tile_step (img : tensor V) (model : Model V) (tile sf : Z)
           (st : tensor V * tensor V) (o : Z * Z) : M (tensor V * tensor V) :=
  let '(E, W) := st in
  let '(h_idx, w_idx) := o in
  let in_patch := slice23 img h_idx (h_idx + tile) w_idx (w_idx + tile) in
  log (EvModel (size in_patch)) ;;;
  out_patch <- lift (model in_patch) ;;
  let out_patch_mask := ones_like out_patch in
  E' <- lift (add_region E (h_idx * sf) ((h_idx + tile) * sf)
                           (w_idx * sf) ((w_idx + tile) * sf) out_patch) ;;
  W' <- lift (add_region W (h_idx * sf) ((h_idx + tile) * sf)
                           (w_idx * sf) ((w_idx + tile) * sf) out_patch_mask) ;;
  ret (E', W').

(** [for h_idx in h_idx_list: for w_idx in w_idx_list: ...] *)
Definition accumulate (img : tensor V) (model : Model V) (tile sf : Z)
           (h_idx_list w_idx_list : list Z) (st : tensor V * tensor V)
  : M (tensor V * tensor V) :=
  foldM (fun st h_idx =>
           foldM (fun st w_idx => tile_step img model tile sf st (h_idx, w_idx))
                 w_idx_list st)
        h_idx_list st.

(** [list(range(0, d - tile, stride)) + [d - tile]] *)
Definition idx_list (d tile stride : Z) : exn + list Z :=
  match py_range 0 (d - tile) stride with
  | inl e => inl e
  | inr l => inr (l ++ [d - tile])
  end.

(** Everything [inference] does before the final divide: validation,
    scheduling, allocation and accumulation.  Returns [(E, W)]. *)
Definition inference_acc (img : tensor V) (model : Model V)
           (tile tile_overlap window_size scale : Z) : M (tensor V * tensor V) :=
  let '(b, c, h, w) := size img in
  let tile := Z.min tile (Z.min h w) in
  r <- lift (py_mod tile window_size) ;;
  py_assert (r =? 0) ;;;
  let sf := scale in
  let stride := tile - tile_overlap in
  h_idx_list <- lift (idx_list h tile stride) ;;
  w_idx_list <- lift (idx_list w tile stride) ;;
  E <- zeros b c (h * sf) (w * sf) ;;
  W <- zeros_like E ;;
  accumulate img model tile sf h_idx_list w_idx_list (E, W).

Definition inference (img : tensor V) (model : Model V)
           (tile tile_overlap window_size scale : Z) : M (tensor V) :=
  ' (E, W) <- inference_acc img model tile tile_overlap window_size scale ;;
  ret (div_ E W).

(** ** [upscale] *)

(** Lines 91-95: [np.array(img)[:, :, ::-1]], [np.moveaxis(.., 2, 0) / 255],
    [.float().unsqueeze(0)], and the unpacking of [img.size()] into four
    names.  An array of rank below 3 fails at the three-axis index, one of
    rank above 3 at the unpacking. *)
Definition prepare (img : ndarray Z) : exn + tensor V :=
  match nd_shape img with
  | [h; w; c] =>
      inr (mk_tensor 1 c h w (fun _ ch i j => of_u8 (nd_get img [i; j; c - 1 - ch])))
  | s => if (Z.of_nat (List.length s) <? 3) then inl IndexError else inl ValueError
  end.

(** [(dim // window_size + 1) * window_size - dim] *)
Definition pad_amount (dim window_size : Z) : exn + Z :=
  match py_floordiv dim window_size with
  | inl e => inl e
  | inr q => inr ((q + 1) * window_size - dim)
  end.

(** Lines 100-101: mirror the tensor below and to the right of itself and
    crop to the padded size. *)
Definition pad_reflect (t : tensor V) (h_pad w_pad : Z) : tensor V :=
  let h_old := th t in
  let w_old := tw t in
  let t1 := slice2_to (cat2 t (flip2 t)) (h_old + h_pad) in
  slice3_to (cat3 t1 (flip3 t1)) (w_old + w_pad).

(** [t.squeeze()]: the axes of length 1 disappear. *)
Definition squeeze_pick (d : Z) (idx : list Z) : Z * list Z :=
  if d =? 1 then (0, idx)
  else match idx with
       | [] => (0, [])
       | k :: idx' => (k, idx')
       end.

Definition squeeze (t : tensor V) : ndarray V :=
  mk_nd (filter (fun d => negb (d =? 1)) [tb t; tc t; th t; tw t])
        (fun idx =>
           let (n, i1) := squeeze_pick (tb t) idx in
           let (c, i2) := squeeze_pick (tc t) i1 in
           let (i, i3) := squeeze_pick (th t) i2 in
           let (j, _) := squeeze_pick (tw t) i3 in
           tat t n c i j).

(** [a.clamp_(0, 1)] *)
Definition clamp_ (a : ndarray V) : ndarray V :=
  mk_nd (nd_shape a) (fun idx => vclamp01 (nd_get a idx)).

(** Lines 105-108: [np.transpose(output[[2, 1, 0], :, :], (1, 2, 0))] when
    [output.ndim == 3]; the fancy index needs a leading axis of length at
    least 3. *)
Definition chw_to_hwc (a : ndarray V) : exn + ndarray V :=
  match nd_shape a with
  | [d0; d1; d2] =>
      if d0 <? 3 then inl IndexError
      else inr (mk_nd [d1; d2; 3]
                  (fun idx => match idx with
                              | [i; j; k] => nd_get a [2 - k; i; j]
                              | _ => nd_get a idx
                              end))
  | _ => inr a
  end.

(** Line 109: [(output * 255.0).round().astype(np.uint8)]. *)
Definition to_uint8 (a : ndarray V) : ndarray Z :=
  mk_nd (nd_shape a) (fun idx => vquant (nd_get a idx)).

(** Pillow's decoding of [bytes] samples into an RGB image [width] wide and
    [height] high: an empty image needs nothing, any other needs three
    bytes per pixel and fewer is "not enough image data". *)
Definition decode_rgb (a : ndarray Z) (bytes width height : Z)
  : exn + ndarray Z :=
  if (width =? 0) || (height =? 0) then inr a
  else if bytes <? 3 * width * height then inl ValueError
  else inr a.

(** Line 110: [Image.fromarray(output, "RGB")].  Pillow reads the height
    from [shape[0]] and the width from [shape[1]] (1 for a single axis),
    refuses more than three axes, and decodes the array's bytes as RGB. *)
Definition fromarray_rgb (a : ndarray Z) : exn + ndarray Z :=
  match nd_shape a with
  | [] => inl IndexError
  | [n] => decode_rgb a n 1 n
  | [h; w] => decode_rgb a (h * w) w h
  | [h; w; c] => decode_rgb a (h * w * c) w h
  | _ => inl ValueError
  end.

(** Lines 91-101 together: the padded tensor and the original height and
    width. *)
Definition pad_input (img : ndarray Z) (window_size : Z)
  : exn + (tensor V * Z * Z) :=
  match prepare img with
  | inl e => inl e
  | inr img =>
      let h_old := th img in
      let w_old := tw img in
      match pad_amount h_old window_size with
      | inl e => inl e
      | inr h_pad =>
          match pad_amount w_old window_size with
          | inl e => inl e
          | inr w_pad => inr (pad_reflect img h_pad w_pad, h_old, w_old)
          end
      end
  end.

Definition upscale (img : ndarray Z) (model : Model V)
           (tile tile_overlap window_size scale : Z) : M (ndarray Z) :=
  ' (img, h_old, w_old) <- lift (pad_input img window_size) ;;
  output <- inference img model tile tile_overlap window_size scale ;;
  let output := slice23 output 0 (h_old * scale) 0 (w_old * scale) in
  let output := clamp_ (squeeze output) in
  output <- lift (chw_to_hwc output) ;;
  let output := to_uint8 output in
  lift (fromarray_rgb output).

End Tensors.

(** ** [UpscalerSwinIR.load_model] and [do_upscale] *)

(** The collaborators the class reaches outside this file. *)
Record Env (V : Type) : Type := mk_env {
  (* basicsr's load_file_from_url(url, model_dir, file_name) *)
  load_file_from_url : string -> string -> string -> exn + option string;
  (* os.path.exists *)
  path_exists : string -> bool;
  (* net(upscale=scale, ...), torch.load, load_state_dict, .half() *)
  load_net : string -> Z -> exn + Model V;
  (* opts.SWIN_tile, opts.SWIN_tile_overlap *)
  SWIN_tile : Z;
  SWIN_tile_overlap : Z
}.
Arguments load_file_from_url {V} _ _ _ _.
Arguments path_exists {V} _ _.
Arguments load_net {V} _ _ _.
Arguments SWIN_tile {V} _.
Arguments SWIN_tile_overlap {V} _.

(** The fields of [self] that [load_model] reads. *)
Record UpscalerSwinIR : Type := mk_upscaler {
  model_name : string;
  model_path : string
}.

(** ["http" in path] *)
Definition contains_http (path : string) : bool :=
  match String.index 0 "http" path with
  | Some _ => true
  | None => false
  end.

(** [s.replace(" ", "_")] *)
Fixpoint replace_spaces (s : string) : string :=
  match s with
  | EmptyString => EmptyString
  | String c s' =>
      String (if Ascii.eqb c " "%char then "_"%char else c) (replace_spaces s')
  end.

Section Upscaler.
Context {V : Type} {SV : Scalar V}.

(** The file name [load_model] settles on (lines 55-59). *)
Definition resolve_filename (env : Env V) (self : UpscalerSwinIR) (path : string)
  : exn + option string :=
  if contains_http path
  then let dl_name := (replace_spaces (model_name self) ++ ".pth")%string in
       load_file_from_url env path (model_path self) dl_name
  else inr (Some path).

Definition load_model (env : Env V) (self : UpscalerSwinIR) (path : string)
           (scale : Z) : exn + option (Model V) :=
  match resolve_filename env self path with
  | inl e => inl e
  | inr None => inr None
  | inr (Some filename) =>
      if negb (path_exists env filename) then inr None
      else match load_net env filename scale with
           | inl e => inl e
           | inr model => inr (Some model)
           end
  end.

Definition do_upscale (env : Env V) (self : UpscalerSwinIR)
           (img : ndarray Z) (model_file : string) : M (ndarray Z) :=
  model <- lift (load_model env self model_file 4) ;;
  match model with
  | None => ret img
  | Some model =>
      upscale img model (SWIN_tile env) (SWIN_tile_overlap env) 8 4
  end.

(** ** Models and images used as concrete inputs *)

(** Nearest-neighbour upscaling by [sf]. *)
Definition nearest_model (sf : Z) : Model V :=
  fun p => inr (mk_tensor (tb p) (tc p) (th p * sf) (tw p * sf)
                  (fun n c i j => tat p n c (i / sf) (j / sf))).

(** A model that, like the network built with [in_chans=3], rejects any
    patch that does not have three channels. *)
Definition rgb_model (sf : Z) : Model V :=
  fun p => if tc p =? 3 then nearest_model sf p else inl ModelError.

End Upscaler.

(** An [h] x [w] x [c] image with a diagonal gradient. *)
Definition gradient_image (h w c : Z) : ndarray Z :=
  mk_nd [h; w; c]
        (fun idx => match idx with
                    | [i; j; k] => (i + j + k) mod 256
                    | _ => 0
                    end).

(** A single-band (mode "L") image: [np.array] gives a rank-2 array. *)
Definition gray_image (h w : Z) : ndarray Z :=
  mk_nd [h; w]
        (fun idx => match idx with
                    | [i; j] => (i + j) mod 256
                    | _ => 0
                    end).

(** ** A concrete scalar: exact rationals with the IEEE special values

    Rounding is left out; what is kept is how IEEE arithmetic treats zero
    divisors and the special values. *)

Inductive xreal : Type :=
| Fin (q : Qc)
| PInf
| NInf
| NaN.

Definition Qc_ltb (a b : Qc) : bool :=
  match (a ?= b)%Qc with Lt => true | _ => false end.

Definition Qc_eqb (a b : Qc) : bool :=
  match (a ?= b)%Qc with Eq => true | _ => false end.

Definition xadd (x y : xreal) : xreal :=
  match x, y with
  | NaN, _ | _, NaN => NaN
  | PInf, NInf | NInf, PInf => NaN
  | PInf, _ | _, PInf => PInf
  | NInf, _ | _, NInf => NInf
  | Fin a, Fin b => Fin (a + b)%Qc
  end.

Definition xdiv (x y : xreal) : xreal :=
  match x, y with
  | NaN, _ | _, NaN => NaN
  | Fin a, Fin b =>
      if Qc_eqb b 0%Qc
      then (if Qc_eqb a 0%Qc then NaN else if Qc_ltb 0%Qc a then PInf else NInf)
      else Fin (a / b)%Qc
  | Fin _, _ => Fin 0%Qc
  | PInf, Fin b => if Qc_ltb b 0%Qc then NInf else PInf
  | NInf, Fin b => if Qc_ltb b 0%Qc then PInf else NInf
  | _, _ => NaN
  end.

Definition xltb (x y : xreal) : bool :=
  match x, y with
  | NaN, _ | _, NaN => false
  | Fin a, Fin b => Qc_ltb a b
  | NInf, NInf | PInf, _ => false
  | NInf, _ | _, PInf => true
  | Fin _, NInf => false
  end.

Definition xclamp01 (x : xreal) : xreal :=
  match x with
  | NaN => NaN
  | PInf => Fin 1%Qc
  | NInf => Fin 0%Qc
  | Fin a => if Qc_ltb a 0%Qc then Fin 0%Qc
             else if Qc_ltb 1%Qc a then Fin 1%Qc else Fin a
  end.

(** Round half to even, as numpy's [round] does. *)
Definition round_half_even (q : Q) : Z :=
  let f := Qfloor q in
  match (q - inject_Z f ?= 1 # 2)%Q with
  | Lt => f
  | Gt => f + 1
  | Eq => if Z.even f then f else f + 1
  end.

Definition xquant (x : xreal) : Z :=
  match x with
  | Fin a => (round_half_even (this a * 255)) mod 256
  | _ => 0
  end.

#[export] Instance xreal_scalar : Scalar xreal := {
  vzero := Fin 0%Qc;
  vone := Fin 1%Qc;
  vadd := xadd;
  vdiv := xdiv;
  vltb := xltb;
  of_u8 := fun z => Fin (Q2Qc (z # 255));
  vclamp01 := xclamp01;
  vquant := xquant
}.

(** A one-image batch with [c] channels whose samples ramp along the
    diagonal. *)
Definition ramp_tensor {V} {SV : Scalar V} (c h w : Z) : tensor V :=
  mk_tensor 1 c h w (fun _ ch i j => of_u8 ((ch + i + j) mod 256)).

(** A host without network and without model files. *)
Definition offline_env {V} {SV : Scalar V} : Env V :=
  mk_env V (fun _ _ _ => inr None) (fun _ => false)
         (fun _ scale => inr (nearest_model scale)) 64 8.

(** The upscaler as [__init__] sets it up. *)
Definition swinir_self : UpscalerSwinIR :=
  mk_upscaler "SwinIR 4x" "models/SwinIR".

(** ** Vocabulary of the statements *)

(** The clamped tile size [min(tile, h, w)]. *)
Definition clamp_tile (tile h w : Z) : Z := Z.min tile (Z.min h w).

(** Position [(i, j)] of the padded image lies in the tile of side [tile]
    with origin [o]. *)
Definition in_tile (tile : Z) (o : Z * Z) (i j : Z) : bool :=
  (fst o <=? i) && (i <? fst o + tile) && (snd o <=? j) && (j <? snd o + tile).

(** Position [(i, j)] of the accumulation buffers lies in the region the
    tile with origin [o] is added to. *)
Definition in_region (tile sf : Z) (o : Z * Z) (i j : Z) : bool :=
  (fst o * sf <=? i) && (i <? (fst o + tile) * sf)
  && (snd o * sf <=? j) && (j <? (snd o + tile) * sf).

(** How many tiles of a schedule hold a position. *)
Definition cover_count (tile : Z) (sched : list (Z * Z)) (i j : Z) : nat :=
  List.length (filter (fun o => in_tile tile o i j) sched).

(** Source row (or column) of row [i] after mirroring an axis of length [d]
    about its far edge. *)
Definition mirror (d i : Z) : Z := if i <? d then i else 2 * d - 1 - i.

(** [m] is the least multiple of [ws] that is at least [d]. *)
Definition least_multiple_ge (ws d m : Z) : Prop :=
  (ws | m) /\ d <= m /\ forall m', (ws | m') -> d <= m' -> m <= m'.

(** [m] is the least multiple of [ws] strictly above [d]. *)
Definition least_multiple_gt (ws d m : Z) : Prop :=
  (ws | m) /\ d < m /\ forall m', (ws | m') -> d < m' -> m <= m'.

(** The computation returned a value rather than raising. *)
Definition succeeded {A} (m : M A) : bool :=
  match outcome m with
  | inr _ => true
  | inl _ => false
  end.

(** The number of model invocations in a trace. *)
Definition model_calls (t : list event) : nat :=
  List.length (filter (fun e => match e with EvModel _ => true | _ => false end) t).

(** A list in which exactly one entry, listed once, passes a test. *)
Definition only_one {A} (p : A -> bool) (l : list A) (x0 : A) : Prop :=
  NoDup l /\ In x0 l /\ p x0 = true /\ forall x, In x l -> p x = true -> x = x0.

(** The four dimensions of a tensor are lengths. *)
Definition wf_tensor {V} (t : tensor V) : Prop :=
  0 <= tb t /\ 0 <= tc t /\ 0 <= th t /\ 0 <= tw t.

(** ** Laws of the scalar arithmetic that statements assume *)

(** Counting up from zero by ones never leaves the positive numbers. *)
Definition count_stays_positive (V : Type) {SV : Scalar V} : Prop :=
  forall x : V, x = vzero \/ vltb vzero x = true -> vltb vzero (vadd x vone) = true.

(** Adding to zero changes nothing. *)
Definition add_zero_neutral (V : Type) {SV : Scalar V} : Prop :=
  forall x : V, vadd vzero x = x.

(** Dividing by one changes nothing. *)
Definition div_one_neutral (V : Type) {SV : Scalar V} : Prop :=
  forall x : V, vdiv x vone = x.

Section Vocabulary.
Context {V : Type} {SV : Scalar V}.

(** The model answers every patch with a patch [sf] times as large. *)
Definition scales (model : Model V) (sf : Z) : Prop :=
  forall p, exists q, model p = inr q /\ size q = (tb p, tc p, th p * sf, tw p * sf).

(** What the model returns on the tile with origin [o]. *)
Definition model_out (model : Model V) (img : tensor V) (tile : Z) (o : Z * Z)
  : tensor V :=
  let in_patch := slice23 img (fst o) (fst o + tile) (snd o) (snd o + tile) in
  match model in_patch with
  | inr q => q
  | inl _ => in_patch
  end.

(** An origin that leaves room for a whole tile inside the image. *)
Definition fits (img : tensor V) (tile : Z) (o : Z * Z) : Prop :=
  0 <= fst o /\ fst o + tile <= th img /\ 0 <= snd o /\ snd o + tile <= tw img.

(** The size of both accumulation buffers. *)
Definition buf_size (img : tensor V) (sf : Z) : shape4 :=
  (tb img, tc img, th img * sf, tw img * sf).

(** What a position of the weight buffer holds after a list of tiles,
    starting from [w0]. *)
Definition weight_after (tile sf : Z) (sched : list (Z * Z)) (w0 : V)
           (i j : Z) : V :=
  fold_left (fun acc o => if in_region tile sf o i j then vadd acc vone else acc)
            sched w0.

(** What a position of the sum buffer holds after a list of tiles, starting
    from [e0]. *)
Definition sum_after (model : Model V) (img : tensor V) (tile sf : Z)
           (sched : list (Z * Z)) (e0 : V) (n c i j : Z) : V :=
  fold_left (fun acc o =>
               if in_region tile sf o i j
               then vadd acc (tat_b (model_out model img tile o) n c
                                    (i - fst o * sf) (j - snd o * sf))
               else acc)
            sched e0.

End Vocabulary.

(** ** [UpscalerSwinIR.__init__] *)

(** [UpscalerData(name, model, self)]: the three arguments [__init__]
    passes. *)
Record UpscalerData : Type := mk_data {
  data_name : string;
  data_path : string;
  data_scaler : UpscalerSwinIR
}.

(** Lines 31-40: the loop that fills [self.scalers] from the model files
    that [find_models] returned; [friendly_name] is modelloader's. *)
Definition init_scalers (friendly_name : string -> string)
           (self : UpscalerSwinIR) (model_files : list string)
  : list UpscalerData :=
  fold_left
    (fun scalers model =>
       let name := if contains_http model then model_name self
                   else friendly_name model in
       scalers ++ [mk_data name model self])
    model_files [].

(** ** Further vocabulary *)

(** The scheduled tiles whose region holds a position of the buffers, in
    the order the loops visit them. *)
Definition covering (tile sf : Z) (sched : list (Z * Z)) (i j : Z)
  : list (Z * Z) :=
  filter (fun o => in_region tile sf o i j) sched.

(** A downloader that is never consulted leaves no mark on the result. *)
Definition with_downloader {V} (env : Env V)
           (dl : string -> string -> string -> exn + option string) : Env V :=
  mk_env V dl (path_exists env) (load_net env) (SWIN_tile env)
         (SWIN_tile_overlap env).

(** No character of the string is a space. *)
Fixpoint no_space (s : string) : bool :=
  match s with
  | EmptyString => true
  | String c s' => negb (Ascii.eqb c " "%char) && no_space s'
  end.

Section MoreModels.
Context {V : Type} {SV : Scalar V}.

(** A model that maps every sample through [g] and replicates it [sf]
    times along both axes. *)
Definition pointwise_model (g : V -> V) (sf : Z) : Model V :=
  fun p => inr (mk_tensor (tb p) (tc p) (th p * sf) (tw p * sf)
                  (fun n c i j => g (tat p n c (i / sf) (j / sf)))).

(** A model that returns its input patch unchanged, whatever the scale. *)
Definition identity_model : Model V := fun p => inr p.

(** A model that raises on every patch. *)
Definition failing_model : Model V := fun _ => inl ModelError.

(** The model answers the patch of the tile with origin [o] by a patch
    [sf] times as large. *)
Definition scales_at (model : Model V) (img : tensor V) (tile sf : Z)
           (o : Z * Z) : Prop :=
  exists q,
    model (slice23 img (fst o) (fst o + tile) (snd o) (snd o + tile)) = inr q
    /\ size q = (tb img, tc img, tile * sf, tile * sf).

End MoreModels.

(** * Properties *)

(** ** The monad *)

Lemma bind_ret_l {A B} (a : A) (k : A -> M B) : bind (ret a) k = k a.
Proof. unfold bind, ret. destruct (k a); reflexivity. Qed.

Lemma bind_lift_inr {A B} (a : A) (k : A -> M B) : bind (lift (inr a)) k = k a.
Proof. unfold bind, lift. destruct (k a); reflexivity. Qed.

Lemma bind_lift_inl {A B} (e : exn) (k : A -> M B) :
  bind (lift (inl e)) k = ([], inl e).
Proof. reflexivity. Qed.

Lemma bind_log {B} (ev : event) (k : unit -> M B) :
  bind (log ev) k = (ev :: fst (k tt), snd (k tt)).
Proof. unfold bind, log. destruct (k tt); reflexivity. Qed.

Lemma bind_assoc {A B C} (m : M A) (f : A -> M B) (g : B -> M C) :
  bind (bind m f) g = bind m (fun a => bind (f a) g).
Proof.
  destruct m as [t [e | a]]; simpl; [reflexivity |].
  destruct (f a) as [t1 [e | b]]; simpl; [reflexivity |].
  destruct (g b) as [t2 r]. now rewrite app_assoc.
Qed.

Lemma bind_ok {A B} (m : M A) (k : A -> M B) t a t' r :
  m = (t, inr a) -> k a = (t', r) -> bind m k = (t ++ t', r).
Proof. intros -> H. simpl. now rewrite H. Qed.

Lemma succeeded_inr {A} (m : M A) :
  succeeded m = true -> exists a, outcome m = inr a.
Proof.
  unfold succeeded. destruct (outcome m) as [e | a]; [discriminate |].
  intros _. now exists a.
Qed.

Lemma foldM_cons {S X} (f : S -> X -> M S) (x : X) (l : list X) (s : S) :
  foldM f (x :: l) s = bind (f s x) (foldM f l).
Proof. reflexivity. Qed.

Lemma foldM_app {S X} (f : S -> X -> M S) (l1 l2 : list X) (s : S) :
  foldM f (l1 ++ l2) s = bind (foldM f l1 s) (foldM f l2).
Proof.
  revert s. induction l1 as [| x l1 IH]; intros s; simpl.
  - now destruct (foldM f l2 s).
  - destruct (f s x) as [t [e | s']]; simpl; [reflexivity |].
    rewrite IH.
    destruct (foldM f l1 s') as [t1 [e | s'']]; simpl; [reflexivity |].
    destruct (foldM f l2 s'') as [t2 r]. now rewrite app_assoc.
Qed.

Lemma foldM_map {S X Y} (f : S -> Y -> M S) (g : X -> Y) (l : list X) (s : S) :
  foldM f (map g l) s = foldM (fun s x => f s (g x)) l s.
Proof.
  revert s. induction l as [| x l IH]; intros s; simpl; [reflexivity |].
  destruct (f s (g x)) as [t [e | s']]; simpl; [reflexivity |].
  now rewrite IH.
Qed.

(** The two nested loops visit the cross product in row-major order. *)
Lemma foldM_nested {S} (f : S -> Z * Z -> M S) (hl wl : list Z) (s : S) :
  foldM (fun s h => foldM (fun s w => f s (h, w)) wl s) hl s
  = foldM f (list_prod hl wl) s.
Proof.
  revert s. induction hl as [| h hl IH]; intros s; simpl; [reflexivity |].
  rewrite foldM_app, foldM_map.
  destruct (foldM (fun s0 w => f s0 (h, w)) wl s) as [t [e | s']]; simpl;
    [reflexivity |].
  now rewrite IH.
Qed.

(** ** Ranges and slices *)

Lemma slice_norm_inside i len : 0 <= i <= len -> slice_norm i len = i.
Proof. unfold slice_norm. intros H. destruct (Z.ltb_spec i 0); lia. Qed.

Lemma slice_len_inside a b len :
  0 <= a -> a <= b -> b <= len -> slice_len a b len = b - a.
Proof.
  intros. unfold slice_len. rewrite !slice_norm_inside by lia. lia.
Qed.

Lemma in_py_range_seq start step n x :
  In x (map (fun k => start + Z.of_nat k * step) (seq 0 n))
  <-> exists k, 0 <= k < Z.of_nat n /\ x = start + k * step.
Proof.
  rewrite in_map_iff. split.
  - intros (k & <- & Hk). apply in_seq in Hk. exists (Z.of_nat k). lia.
  - intros (k & Hk & ->). exists (Z.to_nat k). rewrite in_seq.
    rewrite Z2Nat.id by lia. split; [reflexivity | lia].
Qed.

Lemma range_len_pos stop step k :
  0 < step -> 0 <= k ->
  (k < range_len 0 stop step <-> k * step < stop).
Proof.
  intros Hs Hk. unfold range_len.
  destruct (Z.ltb_spec 0 step) as [_ | ?]; [| lia].
  destruct (Z.ltb_spec 0 stop) as [Hp | Hp].
  - replace (stop - 0 - 1) with (stop - 1) by lia. split; intros H.
    + assert (k <= (stop - 1) / step) by lia.
      assert (step * ((stop - 1) / step) <= stop - 1)
        by (apply Z.mul_div_le; lia).
      nia.
    + assert (k <= (stop - 1) / step); [| lia].
      apply Z.div_le_lower_bound; lia.
  - split; [lia | nia].
Qed.

(** With a positive step, [range(0, stop, step)] is the multiples of the
    step below [stop]. *)
Lemma py_range_pos stop step :
  0 < step ->
  exists l, py_range 0 stop step = inr l /\
            forall x, In x l <-> exists k, 0 <= k /\ x = k * step /\ x < stop.
Proof.
  intros Hs. unfold py_range.
  destruct (Z.eqb_spec step 0); [lia |].
  eexists; split; [reflexivity |]. intros x.
  rewrite in_py_range_seq. split.
  - intros (k & [Hk0 Hk] & ->). exists k. repeat split; try lia.
    assert (Hl : k < range_len 0 stop step).
    { destruct (Z.le_gt_cases (range_len 0 stop step) 0); lia. }
    apply range_len_pos in Hl; lia.
  - intros (k & Hk0 & -> & Hlt). exists k. split; [| lia].
    apply range_len_pos in Hlt; lia.
Qed.

(** With a negative step and a stop that is not below the start, the range
    is empty. *)
Lemma py_range_neg stop step :
  step < 0 -> 0 <= stop -> py_range 0 stop step = inr [].
Proof.
  intros Hs Hp. unfold py_range, range_len.
  destruct (Z.eqb_spec step 0); [lia |].
  destruct (Z.ltb_spec 0 step); [lia |].
  destruct (Z.ltb_spec stop 0); [lia |]. reflexivity.
Qed.

Lemma py_range_zero start stop : py_range start stop 0 = inl ValueError.
Proof. reflexivity. Qed.

(** ** The tile origins along one axis *)

Lemma idx_list_pos d T stride :
  0 < stride ->
  exists l, idx_list d T stride = inr l /\
    forall x, In x l <->
              (exists k, 0 <= k /\ x = k * stride /\ x < d - T) \/ x = d - T.
Proof.
  intros Hs. unfold idx_list.
  destruct (py_range_pos (d - T) stride Hs) as (l & -> & Hl).
  eexists; split; [reflexivity |]. intros x.
  rewrite in_app_iff, Hl. simpl. intuition.
Qed.

Lemma idx_list_neg d T stride :
  stride < 0 -> T <= d -> idx_list d T stride = inr [d - T].
Proof.
  intros Hs Hd. unfold idx_list. now rewrite py_range_neg by lia.
Qed.

Lemma idx_list_zero d T : idx_list d T 0 = inl ValueError.
Proof. reflexivity. Qed.

(** Every scheduled origin leaves room for a whole tile. *)
Lemma idx_list_bounds d T stride :
  stride <> 0 -> T <= d -> 0 <= T ->
  exists l, idx_list d T stride = inr l /\ l <> [] /\
            Forall (fun x => 0 <= x /\ x + T <= d) l.
Proof.
  intros Hs Hd HT.
  destruct (Z.lt_trichotomy stride 0) as [Hn | [Hz | Hp]]; [| lia |].
  - exists [d - T]. split; [now apply idx_list_neg |].
    split; [discriminate |]. constructor; [lia | constructor].
  - destruct (idx_list_pos d T stride Hp) as (l & Hl & Hin).
    exists l. split; [assumption |]. split.
    + intros ->. apply (proj2 (Hin (d - T))). now right.
    + apply Forall_forall. intros x Hx. apply Hin in Hx.
      destruct Hx as [(k & Hk & -> & Hlt) | ->]; nia.
Qed.

(** With a stride of at most the tile size, the origins leave no gap. *)
Lemma idx_list_cover d T stride l i :
  0 < stride <= T -> T <= d -> idx_list d T stride = inr l ->
  0 <= i < d -> exists r, In r l /\ r <= i < r + T.
Proof.
  intros Hs Hd Hl Hi.
  destruct (idx_list_pos d T stride (proj1 Hs)) as (l' & Hl' & Hin).
  rewrite Hl in Hl'. injection Hl' as <-.
  destruct (Z.lt_ge_cases i (d - T)) as [Hlt | Hge].
  - exists (i / stride * stride). split.
    + apply Hin. left. exists (i / stride). split; [| split; [reflexivity |]].
      * apply Z.div_pos; lia.
      * pose proof (Z.mul_div_le i stride (proj1 Hs)). lia.
    + pose proof (Z.mul_div_le i stride (proj1 Hs)).
      pose proof (Z.mul_succ_div_gt i stride (proj1 Hs)). lia.
  - exists (d - T). split; [apply Hin; now right | lia].
Qed.

Lemma py_range_NoDup start stop step l :
  py_range start stop step = inr l -> NoDup l.
Proof.
  unfold py_range. destruct (Z.eqb_spec step 0); [discriminate |].
  intros [= <-]. apply Injective_map_NoDup; [| apply seq_NoDup].
  intros a b Hab. nia.
Qed.

(** With a stride equal to the tile size on an axis that is a whole number
    of tiles long, the origins are distinct multiples of the tile size. *)
Lemma idx_list_exact d T l :
  0 < T -> 0 < d -> (T | d) -> idx_list d T T = inr l ->
  NoDup l /\ forall x, In x l <-> exists k, 0 <= k /\ x = k * T /\ x < d.
Proof.
  intros HT Hd [m Hm] Hl.
  assert (Hm1 : 1 <= m) by nia.
  destruct (idx_list_pos d T T HT) as (l' & Hl' & Hin).
  rewrite Hl in Hl'. injection Hl' as <-. split.
  - unfold idx_list in Hl.
    destruct (py_range_pos (d - T) T HT) as (l0 & Hr & Hin0).
    rewrite Hr in Hl. injection Hl as <-. apply NoDup_app.
    + now apply py_range_NoDup in Hr.
    + constructor; [intros [] | constructor].
    + intros x Hx [<- | []]. apply Hin0 in Hx.
      destruct Hx as (k & _ & _ & Hlt). lia.
  - intros x. rewrite Hin. split.
    + intros [(k & Hk & -> & Hlt) | ->].
      * exists k. lia.
      * exists (m - 1). nia.
    + intros (k & Hk & -> & Hlt).
      destruct (Z.eq_dec k (m - 1)) as [-> | Hne]; [right; nia |].
      left. exists k. repeat split; try lia. nia.
Qed.

(** ** One tile, then all of them *)

Section Accumulation.
Context {V : Type} {SV : Scalar V}.

Lemma size_eq (t : tensor V) b c h w :
  size t = (b, c, h, w) <-> tb t = b /\ tc t = c /\ th t = h /\ tw t = w.
Proof.
  unfold size. split.
  - intros [= -> -> -> ->]. auto.
  - intros (-> & -> & -> & ->). reflexivity.
Qed.

(** An in-place addition on a view that lies inside the buffer, with an
    operand of exactly the size of the view. *)
Lemma add_region_inside (t p : tensor V) r0 r1 c0 c1 :
  0 <= r0 <= r1 -> r1 <= th t -> 0 <= c0 <= c1 -> c1 <= tw t ->
  size p = (tb t, tc t, r1 - r0, c1 - c0) ->
  add_region t r0 r1 c0 c1 p
  = inr (mk_tensor (tb t) (tc t) (th t) (tw t)
           (fun n c i j =>
              if (r0 <=? i) && (i <? r1) && (c0 <=? j) && (j <? c1)
              then vadd (tat t n c i j) (tat_b p n c (i - r0) (j - c0))
              else tat t n c i j)).
Proof.
  intros Hr Hr1 Hc Hc1 Hp. apply size_eq in Hp.
  destruct Hp as (Hb & Hch & Hh & Hw).
  unfold add_region. cbv zeta.
  rewrite !slice_norm_inside by lia.
  unfold bcast_ok. rewrite Hb, Hch, Hh, Hw.
  rewrite !Z.max_r by lia. rewrite !Z.eqb_refl. reflexivity.
Qed.

Variables (img : tensor V) (model : Model V) (T sf : Z).
Hypothesis Hscales : scales model sf.
Hypothesis HT : 0 <= T.
Hypothesis Hsf : 0 <= sf.

Lemma patch_size o :
  fits img T o ->
  size (slice23 img (fst o) (fst o + T) (snd o) (snd o + T))
  = (tb img, tc img, T, T).
Proof.
  intros (H1 & H2 & H3 & H4). unfold size, slice23. simpl.
  rewrite !slice_len_inside by lia. repeat f_equal; lia.
Qed.

Lemma model_out_size o :
  fits img T o -> size (model_out model img T o) = (tb img, tc img, T * sf, T * sf).
Proof.
  intros Ho. unfold model_out.
  destruct (Hscales (slice23 img (fst o) (fst o + T) (snd o) (snd o + T)))
    as (q & -> & Hq).
  rewrite Hq. pose proof (patch_size o Ho) as Hs.
  apply size_eq in Hs. destruct Hs as (-> & -> & -> & ->). reflexivity.
Qed.

(** One iteration of the loop body: the model is called once, the patch is
    added into [E] and a patch of ones into [W], on the tile's region. *)
Lemma tile_step_ok (E W : tensor V) (o : Z * Z) :
  size E = buf_size img sf -> size W = buf_size img sf -> fits img T o ->
  exists E' W',
    tile_step img model T sf (E, W) o
    = ([EvModel (tb img, tc img, T, T)], inr (E', W'))
    /\ size E' = buf_size img sf /\ size W' = buf_size img sf
    /\ (forall n c i j,
           tat W' n c i j
           = if in_region T sf o i j then vadd (tat W n c i j) vone
             else tat W n c i j)
    /\ (forall n c i j,
           tat E' n c i j
           = if in_region T sf o i j
             then vadd (tat E n c i j)
                       (tat_b (model_out model img T o) n c
                              (i - fst o * sf) (j - snd o * sf))
             else tat E n c i j).
Proof.
  intros HE HW Ho.
  pose proof (model_out_size o Ho) as Hout.
  pose proof (patch_size o Ho) as Hpatch.
  unfold model_out in *. destruct o as [r c0]. simpl fst in *. simpl snd in *.
  destruct Ho as (H1 & H2 & H3 & H4). simpl in H1, H2, H3, H4.
  apply size_eq in HE. destruct HE as (HEb & HEc & HEh & HEw).
  apply size_eq in HW. destruct HW as (HWb & HWc & HWh & HWw).
  unfold tile_step.
  destruct (Hscales (slice23 img r (r + T) c0 (c0 + T))) as (q & Hq & _).
  rewrite Hq in *. rewrite bind_log, bind_lift_inr, Hpatch.
  assert (Hq1 : size (ones_like q) = (tb img, tc img, T * sf, T * sf))
    by exact Hout.
  assert (Hr0 : 0 <= r * sf <= (r + T) * sf) by nia.
  assert (Hr1 : (r + T) * sf <= th img * sf)
    by (apply Z.mul_le_mono_nonneg_r; lia).
  assert (Hc0 : 0 <= c0 * sf <= (c0 + T) * sf) by nia.
  assert (Hc1 : (c0 + T) * sf <= tw img * sf)
    by (apply Z.mul_le_mono_nonneg_r; lia).
  rewrite (add_region_inside E q), bind_lift_inr;
    [| lia | lia | lia | lia
     | apply size_eq; apply size_eq in Hout;
       destruct Hout as (-> & -> & -> & ->); rewrite HEb, HEc;
       repeat split; ring].
  rewrite (add_region_inside W (ones_like q)), bind_lift_inr;
    [| lia | lia | lia | lia
     | apply size_eq; apply size_eq in Hq1;
       destruct Hq1 as (-> & -> & -> & ->); rewrite HWb, HWc;
       repeat split; ring].
  do 2 eexists. split; [reflexivity |].
  split; [apply size_eq; simpl; auto |].
  split; [apply size_eq; simpl; auto |].
  split; intros n c i j; reflexivity.
Qed.

Lemma tiles_ok (sched : list (Z * Z)) (E W : tensor V) :
  size E = buf_size img sf -> size W = buf_size img sf -> Forall (fits img T) sched ->
  exists E' W',
    foldM (tile_step img model T sf) sched (E, W)
    = (map (fun _ => EvModel (tb img, tc img, T, T)) sched, inr (E', W'))
    /\ size E' = buf_size img sf /\ size W' = buf_size img sf
    /\ (forall n c i j, tat W' n c i j = weight_after T sf sched (tat W n c i j) i j)
    /\ (forall n c i j, tat E' n c i j = sum_after model img T sf sched (tat E n c i j) n c i j).
Proof.
  revert E W. induction sched as [| o sched IH]; intros E W HE HW Hfit.
  - exists E, W. simpl. auto.
  - inversion Hfit as [| ? ? Ho Hrest]; subst.
    destruct (tile_step_ok E W o HE HW Ho)
      as (E1 & W1 & Hstep & HE1 & HW1 & HWat & HEat).
    destruct (IH E1 W1 HE1 HW1 Hrest)
      as (E2 & W2 & Hfold & HE2 & HW2 & HWat2 & HEat2).
    exists E2, W2. split.
    + rewrite foldM_cons. now rewrite (bind_ok _ _ _ _ _ _ Hstep Hfold).
    + split; [assumption |]. split; [assumption |].
      split; intros n c i j.
      * rewrite HWat2, HWat. reflexivity.
      * rewrite HEat2, HEat. reflexivity.
Qed.

End Accumulation.

(** ** [inference] up to the final divide *)

Section Inference.
Context {V : Type} {SV : Scalar V}.

Lemma Forall_list_prod {A B} (P : A -> Prop) (Q : B -> Prop) la lb :
  Forall P la -> Forall Q lb ->
  Forall (fun o => P (fst o) /\ Q (snd o)) (list_prod la lb).
Proof.
  intros Ha Hb. apply Forall_forall. intros [a b] Hin.
  apply in_prod_iff in Hin. destruct Hin as [Hina Hinb].
  rewrite Forall_forall in Ha, Hb. simpl. auto.
Qed.

Lemma zeros_ok b c h w :
  0 <= b -> 0 <= c -> 0 <= h -> 0 <= w ->
  zeros b c h w
  = ([EvAlloc (b, c, h, w)], inr (mk_tensor b c h w (fun _ _ _ _ => vzero : V))).
Proof.
  intros. unfold zeros.
  destruct (Z.ltb_spec b 0); [lia |]. destruct (Z.ltb_spec c 0); [lia |].
  destruct (Z.ltb_spec h 0); [lia |]. destruct (Z.ltb_spec w 0); [lia |].
  reflexivity.
Qed.

(** A configuration that passes the checks [inference] makes, with a model
    that scales: both buffers are allocated, the model is called once per
    scheduled tile, and the buffers hold the accumulated sums and counts. *)
Lemma inference_acc_ok (img : tensor V) (model : Model V)
      (tile tile_overlap window_size scale : Z) :
  let T := clamp_tile tile (th img) (tw img) in
  0 <= tb img -> 0 <= tc img -> 0 <= T -> 0 <= scale ->
  window_size <> 0 -> T mod window_size = 0 -> T - tile_overlap <> 0 ->
  scales model scale ->
  exists hl wl E W,
    idx_list (th img) T (T - tile_overlap) = inr hl
    /\ idx_list (tw img) T (T - tile_overlap) = inr wl
    /\ hl <> [] /\ wl <> []
    /\ Forall (fits img T) (list_prod hl wl)
    /\ inference_acc img model tile tile_overlap window_size scale
       = (EvAlloc (buf_size img scale) :: EvAlloc (buf_size img scale)
            :: map (fun _ => EvModel (tb img, tc img, T, T)) (list_prod hl wl),
          inr (E, W))
    /\ size E = buf_size img scale /\ size W = buf_size img scale
    /\ (forall n c i j,
           tat W n c i j = weight_after T scale (list_prod hl wl) vzero i j)
    /\ (forall n c i j,
           tat E n c i j
           = sum_after model img T scale (list_prod hl wl) vzero n c i j).
Proof.
  intros T Hb Hc HT Hsf Hws Hmod Hstride Hscales.
  assert (HTh : T <= th img) by (unfold T, clamp_tile; lia).
  assert (HTw : T <= tw img) by (unfold T, clamp_tile; lia).
  destruct (idx_list_bounds (th img) T (T - tile_overlap) Hstride HTh HT)
    as (hl & Hhl & Hhne & Hhfit).
  destruct (idx_list_bounds (tw img) T (T - tile_overlap) Hstride HTw HT)
    as (wl & Hwl & Hwne & Hwfit).
  assert (Hfit : Forall (fits img T) (list_prod hl wl)).
  { pose proof (Forall_list_prod _ _ hl wl Hhfit Hwfit) as HF.
    eapply Forall_impl; [| exact HF]. intros o Ho. unfold fits. simpl in Ho. lia. }
  set (E0 := mk_tensor (tb img) (tc img) (th img * scale) (tw img * scale)
                       (fun _ _ _ _ => vzero : V)).
  destruct (tiles_ok img model T scale Hscales HT Hsf (list_prod hl wl) E0 E0
              eq_refl eq_refl Hfit)
    as (E & W & Hfold & HE & HW & HWat & HEat).
  exists hl, wl, E, W.
  repeat (split; [assumption |]).
  split; [| repeat (split; [assumption |]); assumption].
  unfold inference_acc, size. fold (clamp_tile tile (th img) (tw img)). fold T.
  unfold py_mod. destruct (Z.eqb_spec window_size 0); [contradiction |].
  rewrite bind_lift_inr, Hmod. simpl py_assert. rewrite bind_ret_l.
  rewrite Hhl, bind_lift_inr, Hwl, bind_lift_inr.
  rewrite zeros_ok by nia. fold E0.
  cbn [bind zeros_like log ret app].
  change (mk_tensor (tb E0) (tc E0) (th E0) (tw E0) (fun _ _ _ _ => vzero))
    with E0.
  unfold accumulate. rewrite (foldM_nested (tile_step img model T scale)).
  rewrite Hfold. reflexivity.
Qed.

End Inference.

(** ** Schedules as lists *)

Lemma NoDup_list_prod {A B} (la : list A) (lb : list B) :
  NoDup la -> NoDup lb -> NoDup (list_prod la lb).
Proof.
  intros Ha Hb. induction Ha as [| a la Hnin Ha IH]; simpl; [constructor |].
  apply NoDup_app.
  - apply Injective_map_NoDup; [| assumption]. intros x y [= ->]. reflexivity.
  - exact IH.
  - intros [x y] Hin Hin'. apply in_map_iff in Hin.
    destruct Hin as (y' & [= <- <-] & _).
    apply in_prod_iff in Hin'. now destruct Hin'.
Qed.

Lemma filter_none {A} (p : A -> bool) (l : list A) :
  (forall x, In x l -> p x = false) -> filter p l = [].
Proof.
  induction l as [| a l IH]; intros H; simpl; [reflexivity |].
  rewrite (H a (or_introl eq_refl)). apply IH. intros x Hx. apply H. now right.
Qed.

Lemma only_one_tail {A} (p : A -> bool) (a : A) (l : list A) :
  only_one p (a :: l) a -> forall x, In x l -> p x = false.
Proof.
  intros (Hnd & _ & _ & Huniq) x Hx.
  destruct (p x) eqn:Hp; [| reflexivity].
  inversion Hnd as [| ? ? Hnin _]; subst.
  rewrite (Huniq x (or_intror Hx) Hp) in Hx. contradiction.
Qed.

Lemma only_one_skip {A} (p : A -> bool) (a x0 : A) (l : list A) :
  only_one p (a :: l) x0 -> a <> x0 -> p a = false /\ only_one p l x0.
Proof.
  intros (Hnd & Hin & Hp & Huniq) Hne. split.
  - destruct (p a) eqn:Hpa; [| reflexivity].
    elim Hne. apply Huniq; [now left | assumption].
  - inversion Hnd; subst. destruct Hin as [-> | Hin]; [contradiction |].
    repeat split; try assumption. intros x Hx. apply Huniq. now right.
Qed.

Lemma only_one_count {A} (eq_dec : forall x y : A, {x = y} + {x <> y})
      (p : A -> bool) (l : list A) (x0 : A) :
  only_one p l x0 -> List.length (filter p l) = 1%nat.
Proof.
  induction l as [| a l IH]; intros H.
  - destruct H as (_ & [] & _).
  - destruct (eq_dec a x0) as [-> | Hne].
    + simpl. destruct H as (Hnd & Hin & Hp & Huniq) eqn:E. rewrite Hp.
      rewrite (filter_none p l); [reflexivity |].
      now apply (only_one_tail p x0 l).
    + destruct (only_one_skip p a x0 l H Hne) as [Hpa H']. simpl.
      rewrite Hpa. now apply IH.
Qed.

Lemma fold_none {A S} (p : A -> bool) (g : S -> A -> S) (l : list A) (s : S) :
  (forall x, In x l -> p x = false) ->
  fold_left (fun acc x => if p x then g acc x else acc) l s = s.
Proof.
  revert s. induction l as [| a l IH]; intros s H; simpl; [reflexivity |].
  rewrite (H a (or_introl eq_refl)). apply IH. intros x Hx. apply H. now right.
Qed.

Lemma fold_only_one {A S} (eq_dec : forall x y : A, {x = y} + {x <> y})
      (p : A -> bool) (g : S -> A -> S) (l : list A) (x0 : A) (s : S) :
  only_one p l x0 ->
  fold_left (fun acc x => if p x then g acc x else acc) l s = g s x0.
Proof.
  induction l as [| a l IH]; intros H.
  - destruct H as (_ & [] & _).
  - destruct (eq_dec a x0) as [-> | Hne].
    + simpl. pose proof H as (_ & _ & Hp & _). rewrite Hp.
      apply fold_none. now apply (only_one_tail p x0 l).
    + destruct (only_one_skip p a x0 l H Hne) as [Hpa H']. simpl.
      rewrite Hpa. now apply IH.
Qed.

Lemma origin_eq_dec (x y : Z * Z) : {x = y} + {x <> y}.
Proof. decide equality; apply Z.eq_dec. Qed.

(** ** Tiles and the regions they are added to *)

Lemma scaled_lower r sf i : 0 < sf -> (r * sf <=? i) = (r <=? i / sf).
Proof.
  intros Hsf.
  pose proof (Z.mul_div_le i sf Hsf). pose proof (Z.mul_succ_div_gt i sf Hsf).
  destruct (Z.leb_spec (r * sf) i), (Z.leb_spec r (i / sf)); try reflexivity; nia.
Qed.

Lemma scaled_upper r sf i : 0 < sf -> (i <? r * sf) = (i / sf <? r).
Proof.
  intros Hsf.
  pose proof (Z.mul_div_le i sf Hsf). pose proof (Z.mul_succ_div_gt i sf Hsf).
  destruct (Z.ltb_spec i (r * sf)), (Z.ltb_spec (i / sf) r); try reflexivity; nia.
Qed.

(** A buffer position lies in a tile's region exactly when the image
    position it is upscaled from lies in the tile. *)
Lemma in_region_tile T sf o i j :
  0 < sf -> in_region T sf o i j = in_tile T o (i / sf) (j / sf).
Proof.
  intros Hsf. unfold in_region, in_tile.
  now rewrite !scaled_lower, !scaled_upper by assumption.
Qed.

Lemma scaled_range d sf i : 0 < sf -> 0 <= i < d * sf -> 0 <= i / sf < d.
Proof.
  intros Hsf Hi. split.
  - apply Z.div_pos; lia.
  - apply Z.div_lt_upper_bound; lia.
Qed.

(** ** Coverage *)

Section Coverage.
Context {V : Type} {SV : Scalar V}.

Lemma weight_after_sign (Hpos : count_stays_positive V) T sf sched (w0 : V) i j :
  w0 = vzero \/ vltb vzero w0 = true ->
  weight_after T sf sched w0 i j = vzero
  \/ vltb vzero (weight_after T sf sched w0 i j) = true.
Proof.
  revert w0. induction sched as [| o sched IH]; intros w0 Hw; simpl; [assumption |].
  apply IH. destruct (in_region T sf o i j); [right; now apply Hpos | assumption].
Qed.

Lemma weight_after_keeps (Hpos : count_stays_positive V) T sf sched (w0 : V) i j :
  vltb vzero w0 = true -> vltb vzero (weight_after T sf sched w0 i j) = true.
Proof.
  revert w0. induction sched as [| o sched IH]; intros w0 Hw; simpl; [assumption |].
  apply IH. destruct (in_region T sf o i j); [apply Hpos; now right | assumption].
Qed.

Lemma weight_after_covered (Hpos : count_stays_positive V) T sf sched (w0 : V) i j :
  w0 = vzero \/ vltb vzero w0 = true ->
  (exists o, In o sched /\ in_region T sf o i j = true) ->
  vltb vzero (weight_after T sf sched w0 i j) = true.
Proof.
  revert w0. induction sched as [| a sched IH]; intros w0 Hw (o & Hin & Ho).
  - destruct Hin.
  - simpl. destruct Hin as [-> | Hin].
    + rewrite Ho. apply weight_after_keeps; [assumption | now apply Hpos].
    + apply IH; [| now exists o].
      destruct (in_region T sf a i j); [right; now apply Hpos | assumption].
Qed.

(** The schedule of a valid configuration leaves no position of the image
    outside every tile. *)
Lemma schedule_covers H Wd T overlap hl wl i j :
  0 <= overlap < T -> T <= H -> T <= Wd ->
  idx_list H T (T - overlap) = inr hl ->
  idx_list Wd T (T - overlap) = inr wl ->
  0 <= i < H -> 0 <= j < Wd ->
  exists o, In o (list_prod hl wl) /\ in_tile T o i j = true.
Proof.
  intros Ho HH HW Hhl Hwl Hi Hj.
  destruct (idx_list_cover H T (T - overlap) hl i) as (r & Hr & Hri);
    try assumption; try lia.
  destruct (idx_list_cover Wd T (T - overlap) wl j) as (c & Hc & Hcj);
    try assumption; try lia.
  exists (r, c). split; [now apply in_prod |].
  unfold in_tile. simpl.
  destruct (Z.leb_spec r i); [| lia]. destruct (Z.ltb_spec i (r + T)); [| lia].
  destruct (Z.leb_spec c j); [| lia]. destruct (Z.ltb_spec j (c + T)); [| lia].
  reflexivity.
Qed.

End Coverage.

Lemma inference_of_acc {V} {SV : Scalar V} (img : tensor V) model
      tile tile_overlap window_size scale tr E W :
  inference_acc img model tile tile_overlap window_size scale = (tr, inr (E, W)) ->
  inference img model tile tile_overlap window_size scale = (tr, inr (div_ E W)).
Proof.
  intros H. unfold inference. rewrite H. simpl. now rewrite app_nil_r.
Qed.

Lemma divides_mod ws T : 0 < T -> (ws | T) -> ws <> 0 /\ T mod ws = 0.
Proof.
  intros HT [k Hk]. assert (ws <> 0) by nia. split; [assumption |].
  rewrite Hk. now apply Z.mod_mul.
Qed.

(** C1 (full coverage).  For a padded image of height [H] and width [W],
    a tile size clamped to [T = min(tile, H, W)], an overlap with
    [0 <= overlap < T] and [T] a multiple of the window size: the tile
    rectangles whose origins are the scheduled row origins crossed with the
    scheduled column origins cover every position of [0,H) x [0,W); and once
    [inference] has accumulated all tiles, every entry of the weight buffer
    is strictly positive before the final divide. *)
Theorem C1_full_coverage {V} {SV : Scalar V} (img : tensor V) (model : Model V)
        (tile tile_overlap window_size scale : Z) :
  let H := th img in
  let Wd := tw img in
  let T := clamp_tile tile H Wd in
  count_stays_positive V ->
  wf_tensor img -> scales model scale -> 0 < scale ->
  0 <= tile_overlap < T -> (window_size | T) ->
  exists hl wl,
    idx_list H T (T - tile_overlap) = inr hl
    /\ idx_list Wd T (T - tile_overlap) = inr wl
    /\ (forall i j, 0 <= i < H -> 0 <= j < Wd ->
                    exists o, In o (list_prod hl wl) /\ in_tile T o i j = true)
    /\ exists tr E W,
        inference_acc img model tile tile_overlap window_size scale
        = (tr, inr (E, W))
        /\ inference img model tile tile_overlap window_size scale
           = (tr, inr (div_ E W))
        /\ size W = (tb img, tc img, H * scale, Wd * scale)
        /\ forall n c i j, 0 <= i < H * scale -> 0 <= j < Wd * scale ->
                           vltb vzero (tat W n c i j) = true.
Proof.
  intros H Wd T Hpos (Hb & Hc & _ & _) Hscales Hsf Hov Hdiv.
  destruct (divides_mod window_size T) as [Hws Hmod]; [lia | assumption |].
  destruct (inference_acc_ok img model tile tile_overlap window_size scale)
    as (hl & wl & E & W & Hhl & Hwl & _ & _ & _ & Hacc & _ & HW & HWat & _);
    try assumption; fold H Wd T; try lia.
  fold H Wd T in Hhl, Hwl, Hacc, HWat.
  assert (HTH : T <= H) by (unfold T, clamp_tile; lia).
  assert (HTW : T <= Wd) by (unfold T, clamp_tile; lia).
  exists hl, wl. split; [assumption |]. split; [assumption |]. split.
  - intros i j Hi Hj. now apply (schedule_covers H Wd T tile_overlap).
  - eexists; exists E, W. split; [exact Hacc |].
    split; [now apply inference_of_acc |]. split; [exact HW |].
    intros n c i j Hi Hj. rewrite HWat.
    apply weight_after_covered; [assumption | now left |].
    destruct (schedule_covers H Wd T tile_overlap hl wl (i / scale) (j / scale))
      as (o & Hin & Ho); try assumption; try (apply scaled_range; lia).
    exists o. split; [assumption |]. now rewrite in_region_tile.
Qed.

(** ** The concrete scalar and the concrete models *)

Lemma Qc_ltb_lt (a b : Qc) : Qc_ltb a b = true <-> (a < b)%Qc.
Proof.
  unfold Qc_ltb. rewrite Qclt_alt. destruct (a ?= b)%Qc; split; congruence.
Qed.

Lemma xreal_count_stays_positive : count_stays_positive xreal.
Proof.
  intros x [-> | Hx]; [reflexivity |].
  destruct x as [a | | |]; simpl in *; try reflexivity; try discriminate.
  apply Qc_ltb_lt. apply Qc_ltb_lt in Hx.
  apply Qclt_trans with a; [assumption |].
  apply Qclt_minus_iff. replace (a + 1 + - a)%Qc with 1%Qc by ring.
  reflexivity.
Qed.

Lemma xreal_add_zero_neutral : add_zero_neutral xreal.
Proof.
  intros [a | | |]; simpl; try reflexivity. now rewrite Qcplus_0_l.
Qed.

Lemma xreal_div_one_neutral : div_one_neutral xreal.
Proof.
  intros [a | | |]; simpl; try reflexivity.
  unfold Qcdiv. replace (/ 1)%Qc with 1%Qc by (apply Qc_is_canon; reflexivity).
  now rewrite Qcmult_1_r.
Qed.

Lemma nearest_model_scales {V} {SV : Scalar V} sf :
  scales (nearest_model (V := V) sf) sf.
Proof. intros p. eexists. split; reflexivity. Qed.

Lemma C1_full_coverage_witness :
  exists tr E W,
    inference_acc (ramp_tensor (V := xreal) 3 16 24) (nearest_model 4) 8 2 8 4
    = (tr, inr (E, W))
    /\ vltb vzero (tat W 0 0 63 95) = true.
Proof.
  destruct (C1_full_coverage (ramp_tensor (V := xreal) 3 16 24)
              (nearest_model 4) 8 2 8 4)
    as (hl & wl & _ & _ & _ & tr & E & W & Hacc & _ & _ & Hpos).
  - exact xreal_count_stays_positive.
  - unfold wf_tensor. simpl. lia.
  - apply nearest_model_scales.
  - lia.
  - vm_compute. split; congruence.
  - exists 1. reflexivity.
  - exists tr, E, W. split; [exact Hacc |]. apply Hpos; simpl; lia.
Defined.

(** ** Padding *)

Lemma pad_amount_ok dim ws :
  ws <> 0 -> pad_amount dim ws = inr ((dim / ws + 1) * ws - dim).
Proof.
  intros Hws. unfold pad_amount, py_floordiv.
  destruct (Z.eqb_spec ws 0); [contradiction | reflexivity].
Qed.

Lemma pad_amount_range dim ws :
  0 < ws -> 1 <= (dim / ws + 1) * ws - dim <= ws.
Proof.
  intros Hws. pose proof (Z.mul_div_le dim ws Hws).
  pose proof (Z.mul_succ_div_gt dim ws Hws). nia.
Qed.

Lemma pad_reflect_size {V} (t : tensor V) h_pad w_pad :
  0 <= th t -> 0 <= tw t -> 0 <= h_pad -> 0 <= w_pad ->
  size (pad_reflect t h_pad w_pad)
  = (tb t, tc t, Z.min (th t + h_pad) (2 * th t), Z.min (tw t + w_pad) (2 * tw t)).
Proof.
  intros Hh Hw Hhp Hwp. apply size_eq.
  unfold pad_reflect, slice3_to, slice2_to, cat3, cat2, flip3, flip2.
  cbn [tb tc th tw]. unfold slice_len, slice_norm.
  destruct (Z.ltb_spec (th t + h_pad) 0); [lia |].
  destruct (Z.ltb_spec (tw t + w_pad) 0); [lia |].
  change (0 <? 0) with false. cbv iota. lia.
Qed.

(** C3 (padding is never zero).  For every dimension [dim] and every
    positive window size, the padding amount
    [(dim // window_size + 1) * window_size - dim] is at least 1; and when
    [dim] is already a multiple of the window size the amount is a whole
    window, so that the padded axis of a non-empty image is
    [dim + window_size] long. *)
Theorem C3_padding_at_least_one (dim window_size : Z) :
  0 < window_size ->
  exists pad,
    pad_amount dim window_size = inr pad
    /\ 1 <= pad
    /\ (dim mod window_size = 0 ->
        pad = window_size
        /\ forall V (t : tensor V) other,
            0 < dim -> 0 <= other ->
            (th t = dim -> 0 <= tw t ->
             th (pad_reflect t pad other) = dim + window_size)
            /\ (tw t = dim -> 0 <= th t ->
                tw (pad_reflect t other pad) = dim + window_size)).
Proof.
  intros Hws. exists ((dim / window_size + 1) * window_size - dim).
  split; [apply pad_amount_ok; lia |].
  pose proof (pad_amount_range dim window_size Hws) as Hr.
  split; [lia |]. intros Hmod.
  assert (Hpad : (dim / window_size + 1) * window_size - dim = window_size).
  { apply Z.mod_divide in Hmod; [| lia]. destruct Hmod as [k ->].
    rewrite Z.div_mul by lia. ring. }
  split; [assumption |]. rewrite Hpad. intros V t other Hdim Hother.
  assert (Hle : window_size <= dim).
  { apply Z.mod_divide in Hmod; [| lia]. destruct Hmod as [k Hk].
    assert (1 <= k) by nia. nia. }
  split; intros Heq Hnn.
  - pose proof (pad_reflect_size t window_size other) as Hs.
    apply size_eq in Hs; lia.
  - pose proof (pad_reflect_size t other window_size) as Hs.
    apply size_eq in Hs; lia.
Qed.

Lemma C3_padding_at_least_one_witness :
  exists pad, pad_amount 136 8 = inr pad /\ 1 <= pad /\ pad = 8.
Proof.
  destruct (C3_padding_at_least_one 136 8) as (pad & Hpad & Hone & Hfull);
    [lia |].
  exists pad. split; [exact Hpad |]. split; [exact Hone |].
  apply Hfull. reflexivity.
Defined.

(** ** Failures before any work *)

(** C7 (tile size not a multiple of the window size).  When the tile size
    clamped to [min(tile, H, W)] is not a multiple of the window size,
    [inference] fails at once, with the assertion error "tile size should be
    a multiple of window_size" whenever the window size is not zero, and
    neither accumulation buffer is allocated (nor the model called); the same
    holds of [upscale] on any image that pads to this tensor. *)
Theorem C7_tile_not_multiple {V} {SV : Scalar V} (img : tensor V)
        (model : Model V) (tile tile_overlap window_size scale : Z) :
  ~ (window_size | clamp_tile tile (th img) (tw img)) ->
  exists e,
    (window_size <> 0 -> e = AssertionError)
    /\ inference_acc img model tile tile_overlap window_size scale = ([], inl e)
    /\ inference img model tile tile_overlap window_size scale = ([], inl e)
    /\ forall pix h_old w_old,
        pad_input pix window_size = inr (img, h_old, w_old) ->
        upscale pix model tile tile_overlap window_size scale = ([], inl e).
Proof.
  intros Hnd.
  assert (Hacc : exists e, (window_size <> 0 -> e = AssertionError)
                 /\ inference_acc img model tile tile_overlap window_size scale
                    = ([], inl e)).
  { unfold inference_acc, size.
    fold (clamp_tile tile (th img) (tw img)). unfold py_mod.
    destruct (Z.eqb_spec window_size 0) as [Hz | Hnz].
    - exists ZeroDivisionError. split; [contradiction | reflexivity].
    - exists AssertionError. split; [reflexivity |].
      rewrite bind_lift_inr.
      destruct (Z.eqb_spec (clamp_tile tile (th img) (tw img) mod window_size) 0)
        as [Hm | Hm]; [| reflexivity].
      elim Hnd. now apply Z.mod_divide. }
  destruct Hacc as (e & He & Hacc). exists e.
  assert (Hinf : inference img model tile tile_overlap window_size scale
                 = ([], inl e)) by (unfold inference; now rewrite Hacc).
  repeat (split; [assumption |]).
  intros pix h_old w_old Hpad. unfold upscale.
  rewrite Hpad, bind_lift_inr, Hinf. reflexivity.
Qed.

Lemma C7_tile_not_multiple_witness :
  inference (ramp_tensor (V := xreal) 3 136 136) (nearest_model 4) 50 8 8 4
  = ([], inl AssertionError).
Proof.
  destruct (C7_tile_not_multiple (ramp_tensor (V := xreal) 3 136 136)
              (nearest_model 4) 50 8 8 4) as (e & He & _ & Hinf & _).
  - intros [k Hk]. unfold clamp_tile in Hk. simpl in Hk. lia.
  - rewrite Hinf, He; [reflexivity | lia].
Defined.

(** ** [do_upscale] without a model *)

(** C10 (no model, no work).  When the file name [load_model] settles on
    is [None] or names a file that does not exist, [load_model] returns
    [None] and [do_upscale] returns its input image unchanged, with no
    buffer allocated and no model invoked. *)
Theorem C10_missing_model_returns_input {V} {SV : Scalar V} (env : Env V)
        (self : UpscalerSwinIR) (img : ndarray Z) (model_file : string) :
  (resolve_filename env self model_file = inr None
   \/ exists filename,
       resolve_filename env self model_file = inr (Some filename)
       /\ path_exists env filename = false) ->
  load_model env self model_file 4 = inr None
  /\ do_upscale env self img model_file = ([], inr img).
Proof.
  intros Hres.
  assert (Hload : load_model env self model_file 4 = inr None).
  { unfold load_model. destruct Hres as [-> | (f & -> & ->)]; reflexivity. }
  split; [assumption |]. unfold do_upscale. now rewrite Hload.
Qed.

Lemma C10_missing_model_returns_input_witness :
  do_upscale (V := xreal) offline_env swinir_self (gradient_image 4 4 3)
             "weights/missing.pth"
  = ([], inr (gradient_image 4 4 3)).
Proof.
  apply (C10_missing_model_returns_input (V := xreal) offline_env swinir_self
           (gradient_image 4 4 3) "weights/missing.pth").
  right. exists "weights/missing.pth"%string. split; reflexivity.
Defined.

(** ** No overlap *)

Section NoOverlap.
Context {V : Type} {SV : Scalar V}.

Lemma only_one_ext {A} (p q : A -> bool) (l : list A) (x0 : A) :
  (forall x, p x = q x) -> only_one p l x0 -> only_one q l x0.
Proof.
  intros Hpq (Hnd & Hin & Hp & Huniq). repeat split; try assumption.
  - now rewrite <- Hpq.
  - intros x Hx Hq. apply Huniq; [assumption | now rewrite Hpq].
Qed.

Lemma bidx_in_range d k : 0 <= k < d -> bidx d k = k.
Proof. intros Hk. unfold bidx. destruct (Z.eqb_spec d 1); lia. Qed.

Lemma tile_of_position T i : 0 < T -> i / T * T <= i < i / T * T + T.
Proof.
  intros HT. pose proof (Z.mul_div_le i T HT).
  pose proof (Z.mul_succ_div_gt i T HT). lia.
Qed.

Lemma tile_of_position_unique T i k :
  0 < T -> k * T <= i < k * T + T -> k * T = i / T * T.
Proof.
  intros HT Hk. pose proof (tile_of_position T i HT).
  assert (k = i / T) by nia. now subst.
Qed.

(** With a stride of one tile on axes that are whole numbers of tiles long,
    each position lies in the tile whose origin is the position rounded down
    to a multiple of the tile size, and in no other. *)
Lemma exact_schedule_only_one H Wd T hl wl i j :
  0 < T -> 0 < H -> 0 < Wd -> (T | H) -> (T | Wd) ->
  idx_list H T T = inr hl -> idx_list Wd T T = inr wl ->
  0 <= i < H -> 0 <= j < Wd ->
  only_one (fun o => in_tile T o i j) (list_prod hl wl) (i / T * T, j / T * T).
Proof.
  intros HT HH HW HdH HdW Hhl Hwl Hi Hj.
  destruct (idx_list_exact H T hl HT HH HdH Hhl) as [Hndh Hinh].
  destruct (idx_list_exact Wd T wl HT HW HdW Hwl) as [Hndw Hinw].
  pose proof (tile_of_position T i HT) as Hti.
  pose proof (tile_of_position T j HT) as Htj.
  repeat split.
  - now apply NoDup_list_prod.
  - apply in_prod.
    + apply Hinh. exists (i / T).
      split; [apply Z.div_pos; lia | split; [reflexivity | lia]].
    + apply Hinw. exists (j / T).
      split; [apply Z.div_pos; lia | split; [reflexivity | lia]].
  - unfold in_tile. simpl.
    destruct (Z.leb_spec (i / T * T) i); [| lia].
    destruct (Z.ltb_spec i (i / T * T + T)); [| lia].
    destruct (Z.leb_spec (j / T * T) j); [| lia].
    destruct (Z.ltb_spec j (j / T * T + T)); [| lia]. reflexivity.
  - intros [r c] Hin Hp. apply in_prod_iff in Hin. destruct Hin as [Hr Hc].
    apply Hinh in Hr. destruct Hr as (k & _ & -> & _).
    apply Hinw in Hc. destruct Hc as (k' & _ & -> & _).
    unfold in_tile in Hp. simpl in Hp.
    apply andb_prop in Hp. destruct Hp as [Hp Hp4].
    apply andb_prop in Hp. destruct Hp as [Hp Hp3].
    apply andb_prop in Hp. destruct Hp as [Hp1 Hp2].
    apply Z.leb_le in Hp1, Hp3. apply Z.ltb_lt in Hp2, Hp4.
    f_equal; apply tile_of_position_unique; lia.
Qed.

End NoOverlap.

(** C5 (non-overlap identity).  For a padded image whose height and width
    are whole multiples of the clamped tile size, with an overlap of zero
    (so the stride is the tile size): every position lies in exactly one
    scheduled tile, the weight buffer holds one everywhere, and the value
    [inference] returns at a position is the value the model returned for
    the one tile holding it, at the matching offset: the model's outputs
    laid side by side, with no blending. *)
Theorem C5_non_overlap_identity {V} {SV : Scalar V} (img : tensor V)
        (model : Model V) (tile window_size scale : Z) :
  let H := th img in
  let Wd := tw img in
  let T := clamp_tile tile H Wd in
  add_zero_neutral V -> div_one_neutral V ->
  wf_tensor img -> scales model scale -> 0 < scale ->
  0 < T -> (T | H) -> (T | Wd) -> (window_size | T) ->
  exists hl wl tr E W,
    idx_list H T (T - 0) = inr hl
    /\ idx_list Wd T (T - 0) = inr wl
    /\ inference_acc img model tile 0 window_size scale = (tr, inr (E, W))
    /\ inference img model tile 0 window_size scale = (tr, inr (div_ E W))
    /\ (forall i j, 0 <= i < H -> 0 <= j < Wd ->
                    cover_count T (list_prod hl wl) i j = 1%nat)
    /\ (forall n c i j, 0 <= i < H * scale -> 0 <= j < Wd * scale ->
                        tat W n c i j = vone)
    /\ (forall n c i j,
           0 <= n < tb img -> 0 <= c < tc img ->
           0 <= i < H * scale -> 0 <= j < Wd * scale ->
           let o := (i / (T * scale) * T, j / (T * scale) * T) in
           tat (div_ E W) n c i j
           = tat (model_out model img T o) n c
                 (i - fst o * scale) (j - snd o * scale)).
Proof.
  intros H Wd T Hadd Hdiv1 (Hb & Hc & _ & _) Hscales Hsf HT HdH HdW Hdiv.
  destruct (divides_mod window_size T) as [Hws Hmod]; [lia | assumption |].
  destruct (inference_acc_ok img model tile 0 window_size scale)
    as (hl & wl & E & W & Hhl & Hwl & _ & _ & Hfit & Hacc & _ & _ & HWat & HEat);
    try assumption; fold H Wd T; try lia.
  fold H Wd T in Hhl, Hwl, Hacc, HWat, HEat, Hfit.
  assert (HTH : T <= H) by (unfold T, clamp_tile; lia).
  assert (HTW : T <= Wd) by (unfold T, clamp_tile; lia).
  assert (Hone : forall i j, 0 <= i < H -> 0 <= j < Wd ->
            only_one (fun o => in_tile T o i j) (list_prod hl wl)
                     (i / T * T, j / T * T)).
  { intros i j Hi Hj. replace (T - 0) with T in Hhl, Hwl by lia.
    apply (exact_schedule_only_one H Wd); try assumption; lia. }
  assert (Hone' : forall i j, 0 <= i < H * scale -> 0 <= j < Wd * scale ->
            only_one (fun o => in_region T scale o i j) (list_prod hl wl)
                     (i / (T * scale) * T, j / (T * scale) * T)).
  { intros i j Hi Hj.
    rewrite (Z.mul_comm T scale), <- !Z.div_div by lia.
    apply only_one_ext with (p := fun o => in_tile T o (i / scale) (j / scale)).
    - intros o. symmetry. now apply in_region_tile.
    - apply Hone; apply scaled_range; lia. }
  exists hl, wl. eexists. exists E, W.
  split; [assumption |]. split; [assumption |]. split; [exact Hacc |].
  split; [now apply inference_of_acc |]. split; [| split].
  - intros i j Hi Hj. unfold cover_count.
    apply (only_one_count origin_eq_dec) with (x0 := (i / T * T, j / T * T)).
    now apply Hone.
  - intros n c i j Hi Hj. rewrite HWat. unfold weight_after.
    rewrite (fold_only_one origin_eq_dec _ (fun acc _ => vadd acc vone) _ _ _
               (Hone' i j Hi Hj)).
    apply Hadd.
  - intros n c i j Hn Hch Hi Hj o.
    pose proof (Hone' i j Hi Hj) as Ho. fold o in Ho.
    assert (Hfo : fits img T o).
    { rewrite Forall_forall in Hfit. apply Hfit. apply Ho. }
    assert (Hin : in_region T scale o i j = true) by apply Ho.
    unfold div_. cbn [tat]. rewrite HWat, HEat. unfold weight_after, sum_after.
    rewrite (fold_only_one origin_eq_dec _ (fun acc _ => vadd acc vone) _ _ _ Ho).
    rewrite (fold_only_one origin_eq_dec _
               (fun acc o => vadd acc (tat_b (model_out model img T o) n c
                                         (i - fst o * scale) (j - snd o * scale)))
               _ _ _ Ho).
    rewrite !Hadd, Hdiv1.
    assert (Hsz : size (model_out model img T o)
                  = (tb img, tc img, T * scale, T * scale))
      by (apply model_out_size; auto; lia).
    apply size_eq in Hsz. destruct Hsz as (Sb & Sc & Sh & Sw).
    unfold in_region in Hin.
    apply andb_prop in Hin. destruct Hin as [Hin Hp4].
    apply andb_prop in Hin. destruct Hin as [Hin Hp3].
    apply andb_prop in Hin. destruct Hin as [Hp1 Hp2].
    apply Z.leb_le in Hp1, Hp3. apply Z.ltb_lt in Hp2, Hp4.
    unfold tat_b. rewrite Sb, Sc, Sh, Sw.
    rewrite !bidx_in_range by lia. reflexivity.
Qed.

Lemma C5_non_overlap_identity_witness :
  exists tr E W,
    inference (ramp_tensor (V := xreal) 3 16 24) (nearest_model 4) 8 0 8 4
    = (tr, inr (div_ E W))
    /\ cover_count 8 (list_prod [0; 8] [0; 8; 16]) 10 20 = 1%nat
    /\ tat W 0 2 40 80 = vone
    /\ tat (div_ E W) 0 2 40 80
       = tat (model_out (nearest_model 4) (ramp_tensor 3 16 24) 8 (8, 16))
             0 2 8 16.
Proof.
  destruct (C5_non_overlap_identity (ramp_tensor (V := xreal) 3 16 24)
              (nearest_model 4) 8 8 4)
    as (hl & wl & tr & E & W & Hhl & Hwl & _ & Hinf & Hcount & Hone & Hout).
  - exact xreal_add_zero_neutral.
  - exact xreal_div_one_neutral.
  - unfold wf_tensor. simpl. lia.
  - apply nearest_model_scales.
  - lia.
  - vm_compute. reflexivity.
  - exists 2. reflexivity.
  - exists 3. reflexivity.
  - exists 1. reflexivity.
  - exists tr, E, W. split; [exact Hinf |].
    vm_compute in Hhl. vm_compute in Hwl.
    injection Hhl as <-. injection Hwl as <-.
    split; [apply Hcount; simpl; lia |].
    split; [apply Hone; simpl; lia |].
    apply (Hout 0 2 40 80); simpl; lia.
Defined.

(** ** The worked scenario *)

Lemma prepare_rank3 {V} {SV : Scalar V} (img : ndarray Z) h w c :
  nd_shape img = [h; w; c] ->
  prepare (V := V) img
  = inr (mk_tensor 1 c h w
           (fun _ ch i j => of_u8 (nd_get img [i; j; c - 1 - ch]))).
Proof. intros Hs. unfold prepare. now rewrite Hs. Qed.



(** ** The padded tensor *)

Lemma pad_reflect_at {V} (t : tensor V) h_pad w_pad n c i j :
  0 <= h_pad -> 0 <= w_pad ->
  0 <= i < th (pad_reflect t h_pad w_pad) ->
  0 <= j < tw (pad_reflect t h_pad w_pad) ->
  tat (pad_reflect t h_pad w_pad) n c i j
  = tat t n c (mirror (th t) i) (mirror (tw t) j).
Proof.
  intros Hhp Hwp Hi Hj. unfold pad_reflect, mirror.
  unfold slice3_to, slice2_to, cat3, cat2, flip3, flip2. cbn [tb tc th tw tat].
  destruct (Z.ltb_spec j (tw t)), (Z.ltb_spec i (th t)); f_equal; lia.
Qed.

(** C2, as the code has it.  For an image at least as large as its padding
    margin, the padded tensor's height and width are each the least multiple
    of the window size strictly above the original dimension, and every
    sample of the added margin is the mirror image, about the bottom and
    right edges, of a sample of the image (in the reversed channel order and
    scaled by 1/255, as everywhere in the tensor). *)
Theorem C2_padded_tensor {V} {SV : Scalar V} (img : ndarray Z)
        (h w c window_size : Z) :
  let h_pad := (h / window_size + 1) * window_size - h in
  let w_pad := (w / window_size + 1) * window_size - w in
  nd_shape img = [h; w; c] -> 0 < window_size -> h_pad <= h -> w_pad <= w ->
  exists t : tensor V,
    pad_input img window_size = inr (t, h, w)
    /\ size t = (1, c, h + h_pad, w + w_pad)
    /\ least_multiple_gt window_size h (th t)
    /\ least_multiple_gt window_size w (tw t)
    /\ forall n ch i j,
        0 <= i < th t -> 0 <= j < tw t ->
        tat t n ch i j
        = of_u8 (nd_get img [mirror h i; mirror w j; c - 1 - ch]).
Proof.
  intros h_pad w_pad Hshape Hws Hh Hw.
  pose proof (pad_amount_range h window_size Hws) as Hrh. fold h_pad in Hrh.
  pose proof (pad_amount_range w window_size Hws) as Hrw. fold w_pad in Hrw.
  set (t0 := mk_tensor 1 c h w
               (fun _ ch i j => of_u8 (nd_get img [i; j; c - 1 - ch]))).
  assert (Hpad : pad_input (V := V) img window_size
                 = inr (pad_reflect t0 h_pad w_pad, h, w)).
  { unfold pad_input. rewrite (prepare_rank3 img h w c Hshape). fold t0.
    cbn [th tw t0]. rewrite !pad_amount_ok by lia. reflexivity. }
  assert (Hsize : size (pad_reflect t0 h_pad w_pad)
                  = (1, c, h + h_pad, w + w_pad)).
  { rewrite pad_reflect_size; cbn [tb tc th tw t0]; try lia.
    rewrite !Z.min_l by lia. reflexivity. }
  exists (pad_reflect t0 h_pad w_pad). split; [exact Hpad |].
  split; [exact Hsize |].
  pose proof Hsize as Hs. apply size_eq in Hs. destruct Hs as (_ & _ & Sh & Sw).
  assert (Hleast : forall d, least_multiple_gt window_size d
                     (d + ((d / window_size + 1) * window_size - d))).
  { intros d. pose proof (pad_amount_range d window_size Hws).
    repeat split.
    - exists (d / window_size + 1). ring.
    - lia.
    - intros m' [k ->] Hlt.
      pose proof (Z.mul_div_le d window_size Hws).
      assert (d / window_size < k) by nia. nia. }
  split; [rewrite Sh; apply Hleast |]. split; [rewrite Sw; apply Hleast |].
  intros n ch i j Hi Hj. rewrite pad_reflect_at by lia. reflexivity.
Qed.

Lemma C2_padded_tensor_witness :
  exists t : tensor xreal,
    pad_input (gradient_image 130 130 3) 8 = inr (t, 130, 130)
    /\ size t = (1, 3, 136, 136)
    /\ tat t 0 0 133 10 = of_u8 (nd_get (gradient_image 130 130 3) [126; 10; 2]).
Proof.
  destruct (C2_padded_tensor (V := xreal) (gradient_image 130 130 3)
              130 130 3 8) as (t & Hpad & Hsize & _ & _ & Hat).
  - reflexivity.
  - lia.
  - vm_compute. congruence.
  - vm_compute. congruence.
  - exists t. split; [exact Hpad |]. split; [exact Hsize |].
    apply size_eq in Hsize. destruct Hsize as (_ & _ & Sh & Sw).
    rewrite (Hat 0 0 133 10); [reflexivity | rewrite Sh | rewrite Sw];
      vm_compute; split; congruence.
Defined.

(** C2 as stated fails on an image whose dimensions are already multiples
    of the window size: an 8 x 8 image is padded to 16 x 16, although 8 is
    itself the least multiple of 8 that is at least 8. *)
Lemma C2_counterexample :
  exists t : tensor xreal,
    pad_input (gradient_image 8 8 3) 8 = inr (t, 8, 8)
    /\ th t = 16 /\ tw t = 16
    /\ least_multiple_ge 8 8 8
    /\ ~ least_multiple_ge 8 8 (th t)
    /\ ~ least_multiple_ge 8 8 (tw t).
Proof.
  eexists. split; [reflexivity |].
  split; [reflexivity |]. split; [reflexivity |].
  assert (H8 : (8 | 8)) by (exists 1; reflexivity).
  split.
  - repeat split; [assumption | lia | intros; lia].
  - split; intros (_ & _ & Hmin); specialize (Hmin 8 H8 (Z.le_refl 8));
      vm_compute in Hmin; congruence.
Qed.

(** ** Overlap at or above the tile size *)

(** C6, as the code has it.  [inference] never inspects the overlap.  With a
    clamped tile size that passes the window-size assertion: an overlap
    equal to the tile size makes the stride zero, and [range] raises its
    ValueError before any buffer is allocated or the model invoked; an
    overlap above the tile size raises nothing: both buffers are allocated
    and the model is invoked on the single tile with origin
    [(H - T, W - T)]. *)
Theorem C6_overlap_not_validated {V} {SV : Scalar V} (img : tensor V)
        (model : Model V) (tile tile_overlap window_size scale : Z) :
  let H := th img in
  let Wd := tw img in
  let T := clamp_tile tile H Wd in
  window_size <> 0 -> T mod window_size = 0 ->
  (tile_overlap = T ->
   inference img model tile tile_overlap window_size scale
   = ([], inl ValueError))
  /\ (T < tile_overlap ->
      wf_tensor img -> scales model scale -> 0 <= scale -> 0 <= T ->
      idx_list H T (T - tile_overlap) = inr [H - T]
      /\ idx_list Wd T (T - tile_overlap) = inr [Wd - T]
      /\ exists out,
          inference img model tile tile_overlap window_size scale
          = ([EvAlloc (buf_size img scale); EvAlloc (buf_size img scale);
              EvModel (tb img, tc img, T, T)], inr out)).
Proof.
  intros H Wd T Hws Hmod. split.
  - intros ->. unfold inference, inference_acc, size.
    fold (clamp_tile tile (th img) (tw img)). fold H Wd T.
    unfold py_mod. destruct (Z.eqb_spec window_size 0); [contradiction |].
    rewrite bind_lift_inr, Hmod. simpl py_assert. rewrite bind_ret_l.
    rewrite Z.sub_diag, idx_list_zero. reflexivity.
  - intros Hov (Hb & Hc & _ & _) Hscales Hsf HT.
    assert (HTH : T <= H) by (unfold T, clamp_tile; lia).
    assert (HTW : T <= Wd) by (unfold T, clamp_tile; lia).
    assert (Hh : idx_list H T (T - tile_overlap) = inr [H - T])
      by (apply idx_list_neg; lia).
    assert (Hw : idx_list Wd T (T - tile_overlap) = inr [Wd - T])
      by (apply idx_list_neg; lia).
    split; [assumption |]. split; [assumption |].
    destruct (inference_acc_ok img model tile tile_overlap window_size scale)
      as (hl & wl & E & W & Hhl & Hwl & _ & _ & _ & Hacc & _);
      try assumption; fold H Wd T; try lia.
    fold H Wd T in Hhl, Hwl, Hacc.
    rewrite Hh in Hhl. rewrite Hw in Hwl.
    injection Hhl as <-. injection Hwl as <-.
    exists (div_ E W). now apply inference_of_acc.
Qed.

Lemma C6_overlap_not_validated_witness :
  inference (ramp_tensor (V := xreal) 3 16 16) (nearest_model 4) 8 8 8 4
  = ([], inl ValueError)
  /\ exists out,
      inference (ramp_tensor (V := xreal) 3 16 16) (nearest_model 4) 8 9 8 4
      = ([EvAlloc (1, 3, 64, 64); EvAlloc (1, 3, 64, 64); EvModel (1, 3, 8, 8)],
         inr out).
Proof.
  split.
  - apply (C6_overlap_not_validated (ramp_tensor (V := xreal) 3 16 16)
             (nearest_model 4) 8 8 8 4); [lia | | ]; reflexivity.
  - apply (C6_overlap_not_validated (ramp_tensor (V := xreal) 3 16 16)
             (nearest_model 4) 8 9 8 4).
    + lia.
    + reflexivity.
    + vm_compute. reflexivity.
    + unfold wf_tensor. simpl. lia.
    + apply nearest_model_scales.
    + lia.
    + vm_compute. congruence.
Defined.

(** C6 as stated fails: with an overlap of 9 above the clamped tile size of
    8, [upscale] of an 8 x 8 image (padded to 16 x 16) raises nothing; it
    allocates both buffers, invokes the model and returns an image. *)
Lemma C6_counterexample :
  clamp_tile 8 16 16 <= 9
  /\ (exists t : tensor xreal,
         pad_input (gradient_image 8 8 3) 8 = inr (t, 8, 8)
         /\ size t = (1, 3, 16, 16))
  /\ trace (upscale (V := xreal) (gradient_image 8 8 3) (rgb_model 4) 8 9 8 4)
     = [EvAlloc (1, 3, 64, 64); EvAlloc (1, 3, 64, 64); EvModel (1, 3, 8, 8)]
  /\ exists out,
      outcome (upscale (V := xreal) (gradient_image 8 8 3) (rgb_model 4) 8 9 8 4)
      = inr out
      /\ nd_shape out = [32; 32; 3].
Proof.
  split; [vm_compute; congruence |].
  split; [eexists; split; reflexivity |].
  split; [reflexivity |].
  eexists. split; reflexivity.
Qed.

(** ** The final divide *)

(** C8, as the code has it.  The final step of [inference] is one unchecked
    elementwise division: for every configuration that passes the checks
    [inference] does make, it returns [E / W] and raises nothing; and at
    every position that no scheduled tile holds, the weight and the sum are
    both zero, so the value returned there is zero divided by zero. *)
Theorem C8_unchecked_divide {V} {SV : Scalar V} (img : tensor V)
        (model : Model V) (tile tile_overlap window_size scale : Z) :
  let H := th img in
  let Wd := tw img in
  let T := clamp_tile tile H Wd in
  wf_tensor img -> scales model scale -> 0 <= scale -> 0 <= T ->
  window_size <> 0 -> T mod window_size = 0 -> T - tile_overlap <> 0 ->
  exists hl wl tr E W,
    idx_list H T (T - tile_overlap) = inr hl
    /\ idx_list Wd T (T - tile_overlap) = inr wl
    /\ inference_acc img model tile tile_overlap window_size scale
       = (tr, inr (E, W))
    /\ inference img model tile tile_overlap window_size scale
       = (tr, inr (div_ E W))
    /\ forall n c i j,
        (forall o, In o (list_prod hl wl) -> in_region T scale o i j = false) ->
        tat W n c i j = vzero
        /\ tat E n c i j = vzero
        /\ tat (div_ E W) n c i j = vdiv vzero vzero.
Proof.
  intros H Wd T (Hb & Hc & _ & _) Hscales Hsf HT Hws Hmod Hstride.
  destruct (inference_acc_ok img model tile tile_overlap window_size scale)
    as (hl & wl & E & W & Hhl & Hwl & _ & _ & _ & Hacc & _ & _ & HWat & HEat);
    try assumption.
  fold H Wd T in Hhl, Hwl, Hacc, HWat, HEat.
  exists hl, wl. eexists. exists E, W.
  split; [assumption |]. split; [assumption |]. split; [exact Hacc |].
  split; [now apply inference_of_acc |].
  intros n c i j Hnone.
  assert (HW0 : tat W n c i j = vzero).
  { rewrite HWat. unfold weight_after.
    now apply (fold_none _ (fun acc _ => vadd acc vone)). }
  assert (HE0 : tat E n c i j = vzero).
  { rewrite HEat. unfold sum_after.
    now apply (fold_none _
                 (fun acc o => vadd acc (tat_b (model_out model img T o) n c
                                           (i - fst o * scale)
                                           (j - snd o * scale)))). }
  split; [assumption |]. split; [assumption |].
  unfold div_. cbn [tat]. now rewrite HW0, HE0.
Qed.

Lemma C8_unchecked_divide_witness :
  exists tr E W,
    inference (ramp_tensor (V := xreal) 3 16 16) (nearest_model 4) 8 9 8 4
    = (tr, inr (div_ E W))
    /\ tat W 0 0 0 0 = vzero
    /\ tat (div_ E W) 0 0 0 0 = vdiv vzero vzero.
Proof.
  destruct (C8_unchecked_divide (ramp_tensor (V := xreal) 3 16 16)
              (nearest_model 4) 8 9 8 4)
    as (hl & wl & tr & E & W & Hhl & Hwl & _ & Hinf & Hat).
  - unfold wf_tensor. simpl. lia.
  - apply nearest_model_scales.
  - lia.
  - vm_compute. congruence.
  - lia.
  - reflexivity.
  - vm_compute. congruence.
  - exists tr, E, W. split; [exact Hinf |].
    vm_compute in Hhl. vm_compute in Hwl.
    injection Hhl as <-. injection Hwl as <-.
    destruct (Hat 0 0 0 0) as (HW & _ & Hout).
    + intros o [<- | []]. reflexivity.
    + split; assumption.
Defined.

(** C8 as stated fails: with an overlap above the tile size the one
    scheduled tile leaves position (0, 0) of the 16 x 16 padded tensor
    uncovered; its weight is zero after accumulation, and [inference]
    returns normally with NaN at that position. *)
Lemma C8_counterexample :
  exists (t : tensor xreal) tr E W,
    pad_input (gradient_image 8 8 3) 8 = inr (t, 8, 8)
    /\ inference_acc t (rgb_model 4) 8 9 8 4 = (tr, inr (E, W))
    /\ tat W 0 0 0 0 = Fin 0%Qc
    /\ inference t (rgb_model 4) 8 9 8 4 = (tr, inr (div_ E W))
    /\ tat (div_ E W) 0 0 0 0 = NaN
    /\ exists out,
        upscale (V := xreal) (gradient_image 8 8 3) (rgb_model 4) 8 9 8 4
        = (tr, inr out).
Proof.
  do 4 eexists. split; [reflexivity |]. split; [reflexivity |].
  split; [reflexivity |]. split; [reflexivity |]. split; [reflexivity |].
  eexists. reflexivity.
Qed.

(** ** Channel count *)

Lemma bind_trace {A B} (m : M A) (k : A -> M B) :
  exists rest, fst (bind m k) = fst m ++ rest.
Proof.
  destruct m as [t [e | a]]; simpl.
  - exists []. now rewrite app_nil_r.
  - destruct (k a) as [t' r]. now exists t'.
Qed.

(** A configuration that passes the checks [inference] makes reaches the
    model, whatever the model then does. *)
Lemma inference_reaches_model {V} {SV : Scalar V} (img : tensor V)
      (model : Model V) (tile tile_overlap window_size scale : Z) :
  let T := clamp_tile tile (th img) (tw img) in
  0 <= tb img -> 0 <= tc img -> 0 <= T -> 0 <= scale ->
  window_size <> 0 -> T mod window_size = 0 -> T - tile_overlap <> 0 ->
  exists rest,
    trace (inference img model tile tile_overlap window_size scale)
    = EvAlloc (buf_size img scale) :: EvAlloc (buf_size img scale)
        :: EvModel (tb img, tc img, T, T) :: rest.
Proof.
  intros T Hb Hc HT Hsf Hws Hmod Hstride.
  assert (HTh : T <= th img) by (unfold T, clamp_tile; lia).
  assert (HTw : T <= tw img) by (unfold T, clamp_tile; lia).
  destruct (idx_list_bounds (th img) T (T - tile_overlap) Hstride HTh HT)
    as (hl & Hhl & Hhne & Hhfit).
  destruct (idx_list_bounds (tw img) T (T - tile_overlap) Hstride HTw HT)
    as (wl & Hwl & Hwne & Hwfit).
  destruct hl as [| r hl]; [contradiction |].
  destruct wl as [| c wl]; [contradiction |].
  inversion Hhfit as [| ? ? Hr _]; subst.
  inversion Hwfit as [| ? ? Hc0 _]; subst.
  assert (Hfit : fits img T (r, c)) by (unfold fits; simpl; lia).
  set (E0 := mk_tensor (tb img) (tc img) (th img * scale) (tw img * scale)
                       (fun _ _ _ _ => vzero : V)).
  assert (Hacc : exists rest,
             fst (accumulate img model T scale (r :: hl) (c :: wl) (E0, E0))
             = EvModel (tb img, tc img, T, T) :: rest).
  { unfold accumulate.
    rewrite (foldM_nested (tile_step img model T scale)).
    cbn [list_prod map app]. rewrite foldM_cons.
    destruct (bind_trace (tile_step img model T scale (E0, E0) (r, c))
                (foldM (tile_step img model T scale)
                       (map (fun y => (r, y)) wl ++ list_prod hl (c :: wl))))
      as (rest & ->).
    unfold tile_step. rewrite bind_log. cbn [fst].
    pose proof (patch_size img T HT (r, c) Hfit) as Hp.
    cbn [fst snd] in Hp. rewrite Hp. eexists. reflexivity. }
  destruct Hacc as (rest & Hacc).
  unfold trace, inference.
  destruct (bind_trace
              (inference_acc img model tile tile_overlap window_size scale)
              (fun x => let '(E, W) := x in ret (div_ E W))) as (rest' & ->).
  unfold inference_acc, size. fold (clamp_tile tile (th img) (tw img)). fold T.
  unfold py_mod. destruct (Z.eqb_spec window_size 0); [contradiction |].
  rewrite bind_lift_inr, Hmod. simpl py_assert. rewrite bind_ret_l.
  rewrite Hhl, bind_lift_inr, Hwl, bind_lift_inr.
  rewrite zeros_ok by nia. fold E0.
  cbn [bind zeros_like log ret app].
  change (mk_tensor (tb E0) (tc E0) (th E0) (tw E0) (fun _ _ _ _ => vzero))
    with E0.
  destruct (accumulate img model T scale (r :: hl) (c :: wl) (E0, E0))
    as [t res]. cbn [fst] in Hacc. subst t.
  cbn [fst app]. eexists. reflexivity.
Qed.

(** ** Helpers on the way from the tensor to the image *)

Lemma pad_input_ok {V} {SV : Scalar V} (img : ndarray Z) h w c window_size :
  nd_shape img = [h; w; c] -> window_size <> 0 ->
  pad_input (V := V) img window_size
  = inr (pad_reflect
           (mk_tensor 1 c h w
              (fun _ ch i j => of_u8 (nd_get img [i; j; c - 1 - ch])))
           ((h / window_size + 1) * window_size - h)
           ((w / window_size + 1) * window_size - w), h, w).
Proof.
  intros Hshape Hws. unfold pad_input.
  rewrite (prepare_rank3 img h w c Hshape). cbn [th tw].
  now rewrite !pad_amount_ok by assumption.
Qed.

(** The size of the padded tensor, for every image with a channel axis. *)
Lemma pad_input_size {V} {SV : Scalar V} (img : ndarray Z)
        (h w c window_size : Z) :
  nd_shape img = [h; w; c] -> 0 <= h -> 0 <= w -> 0 < window_size ->
  exists t : tensor V,
    pad_input img window_size = inr (t, h, w)
    /\ size t = (1, c, Z.min ((h / window_size + 1) * window_size) (2 * h),
                 Z.min ((w / window_size + 1) * window_size) (2 * w))
    /\ h <= th t <= 2 * h /\ w <= tw t <= 2 * w.
Proof.
  intros Hshape Hh Hw Hws.
  pose proof (pad_amount_range h window_size Hws) as Hrh.
  pose proof (pad_amount_range w window_size Hws) as Hrw.
  set (t0 := mk_tensor 1 c h w
               (fun _ ch i j => of_u8 (nd_get img [i; j; c - 1 - ch]))).
  set (hp := (h / window_size + 1) * window_size - h) in *.
  set (wp := (w / window_size + 1) * window_size - w) in *.
  exists (pad_reflect t0 hp wp).
  split; [apply pad_input_ok; [assumption | lia] |].
  assert (Hsz : size (pad_reflect t0 hp wp)
                = (1, c, Z.min (h + hp) (2 * h), Z.min (w + wp) (2 * w))).
  { rewrite pad_reflect_size by (cbn [th tw t0]; lia). reflexivity. }
  replace ((h / window_size + 1) * window_size) with (h + hp)
    by (unfold hp; ring).
  replace ((w / window_size + 1) * window_size) with (w + wp)
    by (unfold wp; ring).
  split; [exact Hsz |].
  apply size_eq in Hsz. destruct Hsz as (_ & _ & -> & ->). lia.
Qed.

Lemma slice_norm_zero len : 0 <= len -> slice_norm 0 len = 0.
Proof. intros H. unfold slice_norm. simpl. lia. Qed.

Lemma slice_len_crop a len : 0 <= a <= len -> slice_len 0 a len = a.
Proof. intros H. rewrite slice_len_inside; lia. Qed.

(** An array of height, width and three samples per pixel has exactly the
    bytes an RGB image of that size needs. *)
Lemma fromarray_rgb_ok (a : ndarray Z) h w :
  nd_shape a = [h; w; 3] -> fromarray_rgb a = inr a.
Proof.
  intros Hs. unfold fromarray_rgb, decode_rgb. rewrite Hs.
  destruct ((w =? 0) || (h =? 0)); [reflexivity |].
  destruct (Z.ltb_spec (h * w * 3) (3 * w * h)); [lia | reflexivity].
Qed.

(** The squeeze, the clamp, the channel reordering, the quantisation and
    the conversion to an image, for a three-channel result none of whose
    spatial axes has length 1. *)
Lemma finalize_rgb {V} {SV : Scalar V} (o : tensor V) (hs ws : Z) :
  tb o = 1 -> tc o = 3 -> 0 <= hs <= th o -> 0 <= ws <= tw o ->
  hs <> 1 -> ws <> 1 ->
  exists a,
    chw_to_hwc (clamp_ (squeeze (slice23 o 0 hs 0 ws))) = inr a
    /\ fromarray_rgb (to_uint8 a) = inr (to_uint8 a)
    /\ nd_shape a = [hs; ws; 3]
    /\ forall i j k,
        nd_get (to_uint8 a) [i; j; k] = vquant (vclamp01 (tat o 0 (2 - k) i j)).
Proof.
  intros Hb Hc Hh Hw Hh1 Hw1.
  unfold chw_to_hwc, clamp_, squeeze, slice23. cbn [nd_shape nd_get tb tc th tw tat].
  rewrite Hb, Hc, !slice_len_crop by assumption.
  rewrite !slice_norm_zero by lia.
  cbn [filter Z.eqb Pos.eqb negb].
  apply Z.eqb_neq in Hh1, Hw1. rewrite Hh1, Hw1. cbn [negb Z.ltb Z.compare Pos.compare Pos.compare_cont].
  eexists. split; [reflexivity |].
  split; [now apply (fromarray_rgb_ok _ hs ws) |]. split; [reflexivity |].
  intros i j k. unfold to_uint8, squeeze_pick. cbn [nd_get Z.eqb Pos.eqb].
  rewrite Hh1, Hw1. now rewrite !Z.add_0_r.
Qed.

(** The same steps for any number of channels, on a result more than one
    sample high and wide: one channel is squeezed away and the array is not
    an RGB image; no or two channels cannot be indexed by [[2, 1, 0]]; of
    three or more the first three are returned. *)
Lemma finalize_channels {V} {SV : Scalar V} (o : tensor V) (hs ws : Z) :
  tb o = 1 -> 0 <= tc o -> 1 < hs <= th o -> 1 < ws <= tw o ->
  let a := clamp_ (squeeze (slice23 o 0 hs 0 ws)) in
  (tc o = 1 ->
   chw_to_hwc a = inr a /\ fromarray_rgb (to_uint8 a) = inl ValueError)
  /\ (tc o = 0 \/ tc o = 2 -> chw_to_hwc a = inl IndexError)
  /\ (3 <= tc o ->
      exists a',
        chw_to_hwc a = inr a'
        /\ fromarray_rgb (to_uint8 a') = inr (to_uint8 a')
        /\ nd_shape a' = [hs; ws; 3]
        /\ forall i j k,
            nd_get (to_uint8 a') [i; j; k]
            = vquant (vclamp01 (tat o 0 (2 - k) i j))).
Proof.
  intros Hb Hc Hh Hw a.
  assert (Hh1 : (hs =? 1) = false) by (apply Z.eqb_neq; lia).
  assert (Hw1 : (ws =? 1) = false) by (apply Z.eqb_neq; lia).
  assert (Hshape : nd_shape a
                   = if tc o =? 1 then [hs; ws] else [tc o; hs; ws]).
  { unfold a, clamp_, squeeze, slice23. cbn [nd_shape tb tc th tw].
    rewrite Hb, !slice_len_crop by lia. cbn [filter Z.eqb Pos.eqb negb].
    rewrite Hh1, Hw1. now destruct (tc o =? 1). }
  split; [| split].
  - intros Hc1. rewrite Hc1 in Hshape. cbn [Z.eqb Pos.eqb] in Hshape.
    split.
    + unfold chw_to_hwc. now rewrite Hshape.
    + unfold fromarray_rgb, to_uint8, decode_rgb. cbn [nd_shape]. rewrite Hshape.
      destruct (Z.eqb_spec ws 0); [lia |]. destruct (Z.eqb_spec hs 0); [lia |].
      cbn [orb]. destruct (Z.ltb_spec (hs * ws) (3 * ws * hs)); [reflexivity | nia].
  - intros Hc02. unfold chw_to_hwc. rewrite Hshape.
    destruct Hc02 as [Hc0 | Hc2]; [rewrite Hc0 | rewrite Hc2]; reflexivity.
  - intros Hc3.
    assert (Hne : (tc o =? 1) = false) by (apply Z.eqb_neq; lia).
    rewrite Hne in Hshape. unfold chw_to_hwc. rewrite Hshape.
    destruct (Z.ltb_spec (tc o) 3); [lia |].
    eexists. split; [reflexivity |].
    split; [now apply (fromarray_rgb_ok _ hs ws) |]. split; [reflexivity |].
    intros i j k. unfold to_uint8, a, clamp_, squeeze, slice23, squeeze_pick.
    cbn [nd_get tb tc th tw tat]. rewrite Hb, !slice_len_crop by lia.
    rewrite !slice_norm_zero by lia. cbn [Z.eqb Pos.eqb].
    rewrite Hne, Hh1, Hw1. now rewrite !Z.add_0_r.
Qed.

(** Once [inference] has returned, what [upscale] does next is decided by
    the channel reordering and the conversion to an image; neither
    allocates a buffer or calls the model. *)
Lemma upscale_after_inference {V} {SV : Scalar V} (img : ndarray Z)
      (model : Model V) (t o : tensor V)
      (h w tile tile_overlap window_size scale : Z) (tr : list event) :
  pad_input img window_size = inr (t, h, w) ->
  inference t model tile tile_overlap window_size scale = (tr, inr o) ->
  upscale img model tile tile_overlap window_size scale
  = (tr, match chw_to_hwc (clamp_ (squeeze (slice23 o 0 (h * scale)
                                                     0 (w * scale)))) with
         | inl e => inl e
         | inr a => fromarray_rgb (to_uint8 a)
         end).
Proof.
  intros Hpad Hinf. unfold upscale. rewrite Hpad, bind_lift_inr.
  cbv iota beta. rewrite Hinf. cbn [bind].
  destruct (chw_to_hwc _) as [e | a]; cbn [lift bind app].
  - now rewrite app_nil_r.
  - destruct (fromarray_rgb _); now rewrite app_nil_r.
Qed.

(** C9, as the code has it.  [upscale] never inspects the channel count.
    An array with fewer than three axes fails at the three-axis index, with
    IndexError and before anything else happens.  An array of height, width
    and [c] channels, for any [c], is padded and handed to [inference], and
    for every configuration that passes the checks [inference] makes both
    buffers are allocated with [c] channels and the model is invoked on a
    [c]-channel patch.  When the model answers every patch by one [scale]
    times as large and the result is more than one sample high and wide,
    [inference] returns, nothing more is allocated or invoked, and the
    channel count decides what follows: with no or two channels the index
    [[2, 1, 0]] of line 107 raises IndexError; with one channel [squeeze]
    drops the channel axis and [Image.fromarray] raises ValueError; with
    three or more channels an image of the upscaled height and width is
    returned, made of channels 2, 1, 0 of the result. *)
Theorem C9_no_channel_check {V} {SV : Scalar V} (img : ndarray Z)
        (model : Model V) (tile tile_overlap window_size scale : Z) :
  ((List.length (nd_shape img) < 3)%nat ->
   upscale img model tile tile_overlap window_size scale = ([], inl IndexError))
  /\ (forall h w c (t : tensor V),
      nd_shape img = [h; w; c] -> 0 <= c ->
      pad_input img window_size = inr (t, h, w) ->
      let T := clamp_tile tile (th t) (tw t) in
      0 <= T -> 0 <= scale -> T mod window_size = 0 -> T - tile_overlap <> 0 ->
      size t = (1, c, th t, tw t)
      /\ exists rest,
          trace (upscale img model tile tile_overlap window_size scale)
          = EvAlloc (1, c, th t * scale, tw t * scale)
              :: EvAlloc (1, c, th t * scale, tw t * scale)
              :: EvModel (1, c, T, T) :: rest)
  /\ forall h w c (t : tensor V),
      nd_shape img = [h; w; c] -> 0 <= c ->
      pad_input img window_size = inr (t, h, w) ->
      let T := clamp_tile tile (th t) (tw t) in
      0 <= T -> 0 <= scale -> T mod window_size = 0 -> T - tile_overlap <> 0 ->
      0 < window_size -> scales model scale ->
      1 < h * scale -> 1 < w * scale ->
      exists tr o,
        inference t model tile tile_overlap window_size scale = (tr, inr o)
        /\ trace (upscale img model tile tile_overlap window_size scale) = tr
        /\ (c = 0 \/ c = 2 ->
            outcome (upscale img model tile tile_overlap window_size scale)
            = inl IndexError)
        /\ (c = 1 ->
            outcome (upscale img model tile tile_overlap window_size scale)
            = inl ValueError)
        /\ (3 <= c ->
            exists out,
              outcome (upscale img model tile tile_overlap window_size scale)
              = inr out
              /\ nd_shape out = [h * scale; w * scale; 3]
              /\ forall i j k,
                  nd_get out [i; j; k] = vquant (vclamp01 (tat o 0 (2 - k) i j))).
Proof.
  split; [| split].
  - intros Hrank. unfold upscale, pad_input, prepare.
    destruct (nd_shape img) as [| a [| b [| c [| d l]]]]; simpl in Hrank;
      try lia; reflexivity.
  - intros h w c t Hshape Hc Hpad T HT Hsf Hmod Hstride.
    assert (Hws : window_size <> 0).
    { intros ->. unfold pad_input in Hpad.
      rewrite (prepare_rank3 img h w c Hshape) in Hpad. discriminate. }
    assert (Hsize : tb t = 1 /\ tc t = c).
    { unfold pad_input in Hpad.
      rewrite (prepare_rank3 img h w c Hshape) in Hpad. cbn [th tw] in Hpad.
      rewrite !pad_amount_ok in Hpad by assumption.
      injection Hpad as <-. split; reflexivity. }
    destruct Hsize as [Sb Sc]. split; [apply size_eq; auto |].
    destruct (inference_reaches_model t model tile tile_overlap window_size scale)
      as (rest & Hinf); try assumption; try lia.
    unfold buf_size in Hinf. rewrite Sb, Sc in Hinf. fold T in Hinf.
    unfold trace, upscale. rewrite Hpad, bind_lift_inr. cbv iota beta.
    destruct (bind_trace
                (inference t model tile tile_overlap window_size scale)
                (fun output =>
                   output0 <- lift (chw_to_hwc
                                      (clamp_ (squeeze
                                         (slice23 output 0 (h * scale)
                                                  0 (w * scale))))) ;;
                   lift (fromarray_rgb (to_uint8 output0)))) as (rest' & ->).
    unfold trace in Hinf. rewrite Hinf. eexists. reflexivity.
  - intros h w c t Hshape Hc Hpad T HT Hsf Hmod Hstride Hws Hscales Hh1 Hw1.
    assert (Hh : 0 <= h) by nia. assert (Hw : 0 <= w) by nia.
    destruct (pad_input_size (V := V) img h w c window_size Hshape Hh Hw Hws)
      as (t' & Hpad' & Hsize & Hth & Htw).
    rewrite Hpad in Hpad'. injection Hpad' as <-.
    apply size_eq in Hsize. destruct Hsize as (Sb & Sc & _ & _).
    destruct (inference_acc_ok t model tile tile_overlap window_size scale)
      as (hl & wl & E & W & _ & _ & _ & _ & _ & Hacc & HE & _);
      try assumption; try lia.
    unfold buf_size in HE. apply size_eq in HE.
    destruct HE as (Eb & Ec & Eh & Ew). rewrite Sb in Eb. rewrite Sc in Ec.
    pose proof (inference_of_acc _ _ _ _ _ _ _ _ _ Hacc) as Hinf.
    pose proof (finalize_channels (div_ E W) (h * scale) (w * scale)) as HF.
    cbv zeta in HF. cbn [tb tc th tw div_] in HF. rewrite Eb, Ec, Eh, Ew in HF.
    destruct HF as (H1 & H02 & H3); [reflexivity | exact Hc | nia | nia |].
    eexists. exists (div_ E W). split; [exact Hinf |].
    rewrite (upscale_after_inference img model t (div_ E W) h w _ _ _ _ _
               Hpad Hinf).
    cbn [trace outcome fst snd]. split; [reflexivity |].
    split; [| split].
    + intros Hc02. now rewrite (H02 Hc02).
    + intros Hc1. destruct (H1 Hc1) as [-> ->]. reflexivity.
    + intros Hc3. destruct (H3 Hc3) as (a & -> & -> & Hshp & Hget).
      exists (to_uint8 a). split; [reflexivity |].
      split; [exact Hshp | exact Hget].
Qed.

Lemma C9_no_channel_check_witness :
  upscale (V := xreal) (gray_image 8 8) (rgb_model 4) 8 0 8 4
  = ([], inl IndexError)
  /\ (exists rest,
      trace (upscale (V := xreal) (gradient_image 8 8 4) (rgb_model 4) 8 0 8 4)
      = EvAlloc (1, 4, 64, 64) :: EvAlloc (1, 4, 64, 64)
          :: EvModel (1, 4, 8, 8) :: rest)
  /\ outcome (upscale (V := xreal) (gradient_image 8 8 2) (nearest_model 4)
                      8 0 8 4)
     = inl IndexError.
Proof.
  split; [| split].
  - apply (C9_no_channel_check (V := xreal) (gray_image 8 8) (rgb_model 4)
             8 0 8 4). simpl. lia.
  - destruct (proj1 (proj2 (C9_no_channel_check (V := xreal)
                              (gradient_image 8 8 4) (rgb_model 4) 8 0 8 4))
               8 8 4
               (pad_reflect
                  (mk_tensor 1 4 8 8
                     (fun _ ch i j =>
                        of_u8 (nd_get (gradient_image 8 8 4)
                                      [i; j; 4 - 1 - ch])))
                  8 8)) as [_ Hrest].
    + reflexivity.
    + lia.
    + reflexivity.
    + vm_compute. congruence.
    + lia.
    + reflexivity.
    + vm_compute. congruence.
    + vm_compute in Hrest. vm_compute. exact Hrest.
  - destruct (proj2 (proj2 (C9_no_channel_check (V := xreal)
                              (gradient_image 8 8 2) (nearest_model 4)
                              8 0 8 4))
               8 8 2
               (pad_reflect
                  (mk_tensor 1 2 8 8
                     (fun _ ch i j =>
                        of_u8 (nd_get (gradient_image 8 8 2)
                                      [i; j; 2 - 1 - ch])))
                  8 8)) as (tr & o & _ & _ & H02 & _).
    + reflexivity.
    + lia.
    + reflexivity.
    + vm_compute. congruence.
    + lia.
    + reflexivity.
    + vm_compute. congruence.
    + lia.
    + apply nearest_model_scales.
    + lia.
    + lia.
    + apply H02. now right.
Defined.

(** C9 as stated fails: a four-channel image is not rejected by [upscale];
    the buffers are allocated and the model is invoked on a four-channel
    patch.  With a model built for three channels the failure is the
    model's, after its invocation; with a model that takes any channel
    count an image is returned.  A two-channel image with such a model is
    rejected only after all four tiles went through the model, by the
    IndexError of line 107. *)
Lemma C9_counterexample :
  nd_shape (gradient_image 8 8 4) = [8; 8; 4]
  /\ upscale (V := xreal) (gradient_image 8 8 4) (rgb_model 4) 8 0 8 4
     = ([EvAlloc (1, 4, 64, 64); EvAlloc (1, 4, 64, 64); EvModel (1, 4, 8, 8)],
        inl ModelError)
  /\ model_calls
       (trace (upscale (V := xreal) (gradient_image 8 8 4) (rgb_model 4) 8 0 8 4))
     = 1%nat
  /\ (exists out,
      outcome (upscale (V := xreal) (gradient_image 8 8 4) (nearest_model 4)
                       8 0 8 4) = inr out)
  /\ model_calls
       (trace (upscale (V := xreal) (gradient_image 8 8 2) (nearest_model 4)
                       8 0 8 4))
     = 4%nat
  /\ outcome (upscale (V := xreal) (gradient_image 8 8 2) (nearest_model 4)
                      8 0 8 4)
     = inl IndexError.
Proof.
  split; [reflexivity |].
  split; [vm_compute; reflexivity |]. split; [vm_compute; reflexivity |].
  split; [apply succeeded_inr; vm_compute; reflexivity |].
  split; vm_compute; reflexivity.
Qed.

(** * Further properties of the code *)

(** ** The shape of a schedule *)

Lemma sorted_snoc (l : list Z) (x : Z) :
  StronglySorted Z.lt l -> Forall (fun y => y < x) l ->
  StronglySorted Z.lt (l ++ [x]).
Proof.
  induction 1 as [| a l Hs IH Ha]; intros Hx; simpl.
  - repeat constructor.
  - inversion Hx as [| ? ? Hax Hlx]; subst. constructor; [now apply IH |].
    apply Forall_app. split; [assumption | now constructor].
Qed.

Lemma sorted_map_seq (start step : Z) (s n : nat) :
  0 < step ->
  StronglySorted Z.lt (map (fun k => start + Z.of_nat k * step) (seq s n)).
Proof.
  intros Hstep. revert s. induction n as [| n IH]; intros s; simpl.
  - constructor.
  - constructor; [apply IH |].
    apply Forall_forall. intros x Hx. apply in_map_iff in Hx.
    destruct Hx as (k & <- & Hk). apply in_seq in Hk. nia.
Qed.

Lemma range_len_ceil stop step :
  0 < step -> 0 <= stop -> range_len 0 stop step = (stop + step - 1) / step.
Proof.
  intros Hs Hp. unfold range_len.
  destruct (Z.ltb_spec 0 step); [| lia].
  destruct (Z.ltb_spec 0 stop).
  - replace (stop + step - 1) with (stop - 0 - 1 + 1 * step) by lia.
    now rewrite Z.div_add by lia.
  - replace stop with 0 by lia. simpl. symmetry. apply Z.div_small. lia.
Qed.

Lemma idx_list_unfold d tile stride :
  stride <> 0 ->
  idx_list d tile stride
  = inr (map (fun k => 0 + Z.of_nat k * stride)
             (seq 0 (Z.to_nat (range_len 0 (d - tile) stride)))
         ++ [d - tile]).
Proof.
  intros Hs. unfold idx_list, py_range.
  destruct (Z.eqb_spec stride 0); [contradiction | reflexivity].
Qed.

(** X1 (the origins along one axis).  With a positive stride on an axis at
    least one tile long, the origins are strictly increasing (so no tile is
    scheduled twice), start at 0, end at [d - tile], stay within
    [0, d - tile], and there are [ceil((d - tile) / stride) + 1] of them. *)
Theorem schedule_increasing (d tile stride : Z) :
  0 < stride -> tile <= d ->
  exists l,
    idx_list d tile stride = inr l
    /\ StronglySorted Z.lt l
    /\ hd_error l = Some 0
    /\ last l 0 = d - tile
    /\ Forall (fun x => 0 <= x <= d - tile) l
    /\ Z.of_nat (List.length l) = (d - tile + stride - 1) / stride + 1.
Proof.
  intros Hs Hd.
  destruct (idx_list_pos d tile stride Hs) as (l & Hl & Hin).
  exists l. split; [assumption |].
  pose proof Hl as Hl0. rewrite idx_list_unfold in Hl0 by lia.
  set (n := Z.to_nat (range_len 0 (d - tile) stride)) in Hl0.
  assert (Hl1 : map (fun k => 0 + Z.of_nat k * stride) (seq 0 n) ++ [d - tile]
                = l) by congruence.
  clear Hl0. rename Hl1 into Hl0.
  assert (Hn : Z.of_nat n = (d - tile + stride - 1) / stride).
  { unfold n. rewrite range_len_ceil by lia. apply Z2Nat.id.
    apply Z.div_pos; lia. }
  assert (Hall : Forall (fun x => 0 <= x <= d - tile) l).
  { apply Forall_forall. intros x Hx. apply Hin in Hx.
    destruct Hx as [(k & Hk & -> & Hlt) | ->]; nia. }
  split; [| split; [| split; [| split; [assumption |]]]].
  - rewrite <- Hl0. apply sorted_snoc; [now apply sorted_map_seq |].
    apply Forall_forall. intros x Hx.
    assert (Hx' : In x l) by (rewrite <- Hl0; apply in_or_app; now left).
    apply in_py_range_seq in Hx. destruct Hx as (k & [Hk0 Hk] & ->).
    fold n in Hk.
    assert (Hlt : k < range_len 0 (d - tile) stride).
    { unfold n in Hk. destruct (Z.le_gt_cases (range_len 0 (d - tile) stride) 0); lia. }
    apply range_len_pos in Hlt; lia.
  - rewrite <- Hl0. destruct n as [| n'] eqn:En.
    + simpl. f_equal.
      assert (Hz : (d - tile + stride - 1) / stride = 0) by lia.
      apply Z.div_small_iff in Hz; lia.
    + reflexivity.
  - rewrite <- Hl0. apply last_last.
  - rewrite <- Hl0, length_app, length_map, length_seq. simpl. lia.
Qed.

Lemma schedule_increasing_witness :
  exists l,
    idx_list 136 64 56 = inr l /\ StronglySorted Z.lt l
    /\ Z.of_nat (List.length l) = 3.
Proof.
  destruct (schedule_increasing 136 64 56) as (l & Hl & Hs & _ & _ & _ & Hn);
    [lia | lia |].
  exists l. split; [exact Hl |]. split; [exact Hs |]. exact Hn.
Defined.

(** ** One model call per tile *)

Lemma map_const_repeat {A B} (e : B) (l : list A) :
  map (fun _ => e) l = repeat e (List.length l).
Proof. induction l as [| a l IH]; simpl; [reflexivity | now rewrite IH]. Qed.

Lemma model_calls_repeat s k :
  model_calls (repeat (EvModel s) k) = k.
Proof.
  unfold model_calls. induction k as [| k IH]; simpl; [reflexivity |].
  now rewrite IH.
Qed.

(** X2 (what a successful [inference] does).  For a configuration that
    passes the checks [inference] makes and a model that scales, the run
    consists of the two buffer allocations followed by one model call per
    scheduled tile, [len(h_idx_list) * len(w_idx_list)] in all, each on a
    patch of exactly [T x T] samples with all batches and channels; it
    returns a tensor of the padded size times the scale. *)
Theorem inference_one_call_per_tile {V} {SV : Scalar V} (img : tensor V)
        (model : Model V) (tile tile_overlap window_size scale : Z) :
  let T := clamp_tile tile (th img) (tw img) in
  wf_tensor img -> scales model scale -> 0 <= scale -> 0 <= T ->
  window_size <> 0 -> T mod window_size = 0 -> T - tile_overlap <> 0 ->
  exists hl wl out,
    idx_list (th img) T (T - tile_overlap) = inr hl
    /\ idx_list (tw img) T (T - tile_overlap) = inr wl
    /\ inference img model tile tile_overlap window_size scale
       = (EvAlloc (buf_size img scale) :: EvAlloc (buf_size img scale)
            :: repeat (EvModel (tb img, tc img, T, T))
                      (List.length hl * List.length wl),
          inr out)
    /\ model_calls
         (trace (inference img model tile tile_overlap window_size scale))
       = (List.length hl * List.length wl)%nat
    /\ size out = buf_size img scale.
Proof.
  intros T (Hb & Hc & _ & _) Hscales Hsf HT Hws Hmod Hstride.
  destruct (inference_acc_ok img model tile tile_overlap window_size scale)
    as (hl & wl & E & W & Hhl & Hwl & _ & _ & _ & Hacc & HE & _);
    try assumption.
  fold T in Hhl, Hwl, Hacc.
  apply inference_of_acc in Hacc.
  rewrite map_const_repeat, length_prod in Hacc.
  exists hl, wl, (div_ E W).
  split; [assumption |]. split; [assumption |]. split; [exact Hacc |].
  split; [| exact HE].
  rewrite Hacc. unfold trace, model_calls. cbn [fst filter].
  apply model_calls_repeat.
Qed.

Lemma inference_one_call_per_tile_witness :
  model_calls
    (trace (inference (ramp_tensor (V := xreal) 3 16 24) (nearest_model 4)
                      8 2 8 4))
  = 12%nat.
Proof.
  destruct (inference_one_call_per_tile (ramp_tensor (V := xreal) 3 16 24)
              (nearest_model 4) 8 2 8 4)
    as (hl & wl & out & Hhl & Hwl & _ & Hcalls & _).
  - unfold wf_tensor. simpl. lia.
  - apply nearest_model_scales.
  - lia.
  - vm_compute. congruence.
  - lia.
  - reflexivity.
  - vm_compute. congruence.
  - vm_compute in Hhl. vm_compute in Hwl.
    injection Hhl as <-. injection Hwl as <-. exact Hcalls.
Defined.

(** ** Overlap-add *)

Lemma fold_filter {A S} (p : A -> bool) (g : S -> A -> S) (l : list A) (s : S) :
  fold_left (fun acc x => if p x then g acc x else acc) l s
  = fold_left g (filter p l) s.
Proof.
  revert s. induction l as [| a l IH]; intros s; simpl; [reflexivity |].
  destruct (p a); simpl; apply IH.
Qed.

Lemma fold_add_map {V} {SV : Scalar V} {A} (h : A -> V) (l : list A) (s : V) :
  fold_left (fun acc x => vadd acc (h x)) l s = fold_left vadd (map h l) s.
Proof.
  revert s. induction l as [| a l IH]; intros s; simpl; [reflexivity | apply IH].
Qed.

Lemma in_region_bounds T sf o i j :
  in_region T sf o i j = true ->
  0 <= i - fst o * sf < T * sf /\ 0 <= j - snd o * sf < T * sf.
Proof.
  unfold in_region. intros H.
  apply andb_prop in H. destruct H as [H H4].
  apply andb_prop in H. destruct H as [H H3].
  apply andb_prop in H. destruct H as [H1 H2].
  apply Z.leb_le in H1, H3. apply Z.ltb_lt in H2, H4. lia.
Qed.

(** Reading the model's answer for a tile at a position of the tile's
    region involves no broadcasting. *)
Lemma tat_b_model_out {V} {SV : Scalar V} (img : tensor V) (model : Model V)
      T sf o n c i j :
  scales model sf -> 0 <= T -> fits img T o ->
  in_region T sf o i j = true ->
  0 <= n < tb img -> 0 <= c < tc img ->
  tat_b (model_out model img T o) n c (i - fst o * sf) (j - snd o * sf)
  = tat (model_out model img T o) n c (i - fst o * sf) (j - snd o * sf).
Proof.
  intros Hscales HT Hfit Hin Hn Hc.
  pose proof (model_out_size img model T sf Hscales HT o Hfit) as Hsz.
  apply size_eq in Hsz. destruct Hsz as (Sb & Sc & Sh & Sw).
  apply in_region_bounds in Hin.
  unfold tat_b. rewrite Sb, Sc, Sh, Sw.
  unfold bidx.
  destruct (Z.eqb_spec (tb img) 1), (Z.eqb_spec (tc img) 1),
    (Z.eqb_spec (T * sf) 1); f_equal; lia.
Qed.

(** X3 (overlap-add).  For a configuration that passes the checks
    [inference] makes and a model that scales, at a position that no more
    than 2048 tiles hold, the value returned is the sum, taken from zero in
    the order the loops visit the tiles, of what the model returned for each
    tile whose region holds the position, each read at the position's offset
    inside that tile, divided by as many ones added up from zero; and the
    tiles counted are those that hold the image position the buffer position
    is scaled from.  The bound is the range in which the 16-bit weight
    buffer of line 124 counts exactly, so that its count is the one the
    scalar type gives; past it the buffer stops counting and the quotient
    is another. *)
Theorem inference_overlap_add {V} {SV : Scalar V} (img : tensor V)
        (model : Model V) (tile tile_overlap window_size scale : Z) :
  let T := clamp_tile tile (th img) (tw img) in
  wf_tensor img -> scales model scale -> 0 <= scale -> 0 <= T ->
  window_size <> 0 -> T mod window_size = 0 -> T - tile_overlap <> 0 ->
  exists hl wl tr out,
    idx_list (th img) T (T - tile_overlap) = inr hl
    /\ idx_list (tw img) T (T - tile_overlap) = inr wl
    /\ inference img model tile tile_overlap window_size scale = (tr, inr out)
    /\ forall n c i j,
        0 <= n < tb img -> 0 <= c < tc img ->
        let cov := covering T scale (list_prod hl wl) i j in
        (Z.of_nat (List.length cov) <= 2048 ->
         tat out n c i j
         = vdiv (fold_left vadd
                   (map (fun o => tat (model_out model img T o) n c
                                      (i - fst o * scale) (j - snd o * scale))
                        cov)
                   vzero)
                (fold_left vadd (map (fun _ => vone) cov) vzero))
        /\ (0 < scale ->
            List.length cov
            = cover_count T (list_prod hl wl) (i / scale) (j / scale)).
Proof.
  intros T (Hb & Hc & _ & _) Hscales Hsf HT Hws Hmod Hstride.
  destruct (inference_acc_ok img model tile tile_overlap window_size scale)
    as (hl & wl & E & W & Hhl & Hwl & _ & _ & Hfit & Hacc & _ & _ & HWat & HEat);
    try assumption.
  fold T in Hhl, Hwl, Hacc, HWat, HEat, Hfit.
  exists hl, wl. eexists. exists (div_ E W).
  split; [assumption |]. split; [assumption |].
  split; [apply inference_of_acc; exact Hacc |].
  intros n c i j Hn Hch cov. split.
  - intros _. unfold div_. cbn [tat]. rewrite HWat, HEat.
    unfold weight_after, sum_after.
    rewrite (fold_filter (fun o => in_region T scale o i j)
               (fun acc _ => vadd acc vone)).
    rewrite (fold_filter (fun o => in_region T scale o i j)
               (fun acc o => vadd acc (tat_b (model_out model img T o) n c
                                         (i - fst o * scale)
                                         (j - snd o * scale)))).
    fold (covering T scale (list_prod hl wl) i j). fold cov.
    rewrite (fold_add_map (fun _ => vone)).
    rewrite (fold_add_map
               (fun o => tat_b (model_out model img T o) n c
                           (i - fst o * scale) (j - snd o * scale))).
    f_equal. f_equal. apply map_ext_in. intros o Ho.
    unfold cov, covering in Ho. apply filter_In in Ho. destruct Ho as [Ho Hin].
    rewrite Forall_forall in Hfit.
    apply (tat_b_model_out img model T scale); try assumption.
    now apply Hfit.
  - intros Hpos. unfold cov, covering, cover_count. f_equal.
    apply filter_ext. intros o. now apply in_region_tile.
Qed.

Lemma inference_overlap_add_witness :
  exists tr out,
    inference (ramp_tensor (V := xreal) 3 16 16) (nearest_model 4) 8 2 8 4
    = (tr, inr out)
    /\ tat out 0 1 30 12
       = vdiv (fold_left vadd
                 (map (fun o => tat (model_out (nearest_model 4)
                                               (ramp_tensor 3 16 16) 8 o)
                                    0 1 (30 - fst o * 4) (12 - snd o * 4))
                      [(0, 0); (6, 0)])
                 vzero)
              (fold_left vadd (map (fun _ => vone) [(0, 0); (6, 0)]) vzero).
Proof.
  destruct (inference_overlap_add (ramp_tensor (V := xreal) 3 16 16)
              (nearest_model 4) 8 2 8 4)
    as (hl & wl & tr & out & Hhl & Hwl & Hinf & Hat).
  - unfold wf_tensor. simpl. lia.
  - apply nearest_model_scales.
  - lia.
  - vm_compute. congruence.
  - lia.
  - reflexivity.
  - vm_compute. congruence.
  - exists tr, out. split; [exact Hinf |].
    vm_compute in Hhl. vm_compute in Hwl.
    injection Hhl as <-. injection Hwl as <-.
    destruct (Hat 0 1 30 12) as [Hv _]; [simpl; lia | simpl; lia |].
    apply Hv. vm_compute. congruence.
Defined.

(** ** From the padded tensor to the returned image *)

(** X4 (the margin is capped).  For every image with a channel axis and
    every positive window size, the padded tensor is one batch of the
    image's channels, and its height and width are each the smaller of the
    next multiple of the window size above the dimension and twice the
    dimension: mirroring once cannot supply more rows than the image has.
    So a dimension at least as large as its padding amount is padded to the
    next multiple, and a smaller one is only doubled. *)
Theorem padded_size_capped {V} {SV : Scalar V} (img : ndarray Z)
        (h w c window_size : Z) :
  let h_pad := (h / window_size + 1) * window_size - h in
  let w_pad := (w / window_size + 1) * window_size - w in
  nd_shape img = [h; w; c] -> 0 <= h -> 0 <= w -> 0 < window_size ->
  exists t : tensor V,
    pad_input img window_size = inr (t, h, w)
    /\ size t = (1, c, Z.min ((h / window_size + 1) * window_size) (2 * h),
                 Z.min ((w / window_size + 1) * window_size) (2 * w))
    /\ h <= th t <= 2 * h /\ w <= tw t <= 2 * w
    /\ (h_pad <= h -> th t = h + h_pad) /\ (h < h_pad -> th t = 2 * h)
    /\ (w_pad <= w -> tw t = w + w_pad) /\ (w < w_pad -> tw t = 2 * w).
Proof.
  intros h_pad w_pad Hshape Hh Hw Hws.
  destruct (pad_input_size (V := V) img h w c window_size Hshape Hh Hw Hws)
    as (t & Hpad & Hsize & Hth & Htw).
  exists t. split; [exact Hpad |]. split; [exact Hsize |].
  split; [exact Hth |]. split; [exact Htw |].
  apply size_eq in Hsize. destruct Hsize as (_ & _ & Sh & Sw).
  unfold h_pad, w_pad. rewrite Sh, Sw.
  repeat split; intros Hcase; lia.
Qed.

Lemma padded_size_capped_witness :
  exists t : tensor xreal,
    pad_input (gradient_image 3 5 3) 8 = inr (t, 3, 5)
    /\ size t = (1, 3, 6, 8).
Proof.
  destruct (padded_size_capped (V := xreal) (gradient_image 3 5 3) 3 5 3 8)
    as (t & Hpad & Hsize & _); [reflexivity | lia | lia | lia |].
  exists t. split; [exact Hpad | exact Hsize].
Defined.

(** ** Images too small for the window *)

Lemma inference_assert_fails {V} {SV : Scalar V} (img : tensor V)
      (model : Model V) (tile tile_overlap window_size scale : Z) :
  window_size <> 0 ->
  clamp_tile tile (th img) (tw img) mod window_size <> 0 ->
  inference img model tile tile_overlap window_size scale
  = ([], inl AssertionError).
Proof.
  intros Hws Hmod. unfold inference, inference_acc, size.
  fold (clamp_tile tile (th img) (tw img)). unfold py_mod.
  destruct (Z.eqb_spec window_size 0); [contradiction |].
  rewrite bind_lift_inr.
  destruct (Z.eqb_spec (clamp_tile tile (th img) (tw img) mod window_size) 0);
    [contradiction | reflexivity].
Qed.

(** X5 (small images are rejected).  With a positive tile size and window
    size, an image one of whose sides is shorter than half the window size
    cannot be upscaled: mirroring at most doubles that side, the clamped
    tile size stays below the window size, and [upscale] fails with the
    assertion error of [inference] before allocating anything. *)
Theorem small_image_rejected {V} {SV : Scalar V} (img : ndarray Z)
        (model : Model V) (h w c tile tile_overlap window_size scale : Z) :
  nd_shape img = [h; w; c] -> 0 < h -> 0 < w ->
  0 < tile -> 0 < window_size ->
  2 * h < window_size \/ 2 * w < window_size ->
  upscale img model tile tile_overlap window_size scale
  = ([], inl AssertionError).
Proof.
  intros Hshape Hh Hw Htile Hws Hsmall.
  destruct (pad_input_size (V := V) img h w c window_size)
    as (t & Hpad & Hsize & Hth & Htw); try assumption; try lia.
  apply size_eq in Hsize. destruct Hsize as (_ & _ & Sh & Sw).
  assert (HT : 0 < clamp_tile tile (th t) (tw t) < window_size).
  { unfold clamp_tile. lia. }
  unfold upscale. rewrite Hpad, bind_lift_inr. cbv iota beta.
  rewrite inference_assert_fails; [reflexivity | lia |].
  rewrite Z.mod_small; lia.
Qed.

Lemma small_image_rejected_witness :
  upscale (V := xreal) (gradient_image 3 40 3) (nearest_model 4) 64 8 8 4
  = ([], inl AssertionError).
Proof.
  apply (small_image_rejected (V := xreal) (gradient_image 3 40 3)
           (nearest_model 4) 3 40 3 64 8 8 4); try reflexivity; lia.
Defined.

(** ** The returned image *)

Lemma upscale_rgb_ok {V} {SV : Scalar V} (img : ndarray Z) (model : Model V)
      (t : tensor V) (h w tile tile_overlap window_size scale : Z) :
  let T := clamp_tile tile (th t) (tw t) in
  nd_shape img = [h; w; 3] -> 0 <= h -> 0 <= w -> 0 < window_size ->
  pad_input img window_size = inr (t, h, w) ->
  0 <= T -> T mod window_size = 0 -> T - tile_overlap <> 0 ->
  0 <= scale -> scales model scale -> h * scale <> 1 -> w * scale <> 1 ->
  exists tr E W out,
    inference_acc t model tile tile_overlap window_size scale = (tr, inr (E, W))
    /\ upscale img model tile tile_overlap window_size scale = (tr, inr out)
    /\ nd_shape out = [h * scale; w * scale; 3]
    /\ forall i j k,
        nd_get out [i; j; k] = vquant (vclamp01 (tat (div_ E W) 0 (2 - k) i j)).
Proof.
  intros T Hshape Hh Hw Hws Hpad HT Hmod Hstride Hsf Hscales Hh1 Hw1.
  destruct (pad_input_size (V := V) img h w 3 window_size)
    as (t' & Hpad' & Hsize & Hth & Htw); try assumption.
  rewrite Hpad in Hpad'. injection Hpad' as <-.
  apply size_eq in Hsize. destruct Hsize as (Sb & Sc & _ & _).
  destruct (inference_acc_ok t model tile tile_overlap window_size scale)
    as (hl & wl & E & W & _ & _ & _ & _ & _ & Hacc & HE & _);
    try assumption; try lia.
  unfold buf_size in HE. apply size_eq in HE.
  destruct HE as (Eb & Ec & Eh & Ew). rewrite Sb in Eb. rewrite Sc in Ec.
  destruct (finalize_rgb (div_ E W) (h * scale) (w * scale))
    as (a & Ha & Himg & Hshp & Hget); try assumption;
    try (cbn [th tw div_]; rewrite ?Eh, ?Ew; nia).
  eexists. exists E, W, (to_uint8 a).
  split; [exact Hacc |]. split; [| split; [exact Hshp | exact Hget]].
  unfold upscale. rewrite Hpad, bind_lift_inr. cbv iota beta.
  rewrite (inference_of_acc _ _ _ _ _ _ _ _ _ Hacc). cbn [bind].
  rewrite Ha. cbn [lift bind ret app]. rewrite Himg.
  now rewrite !app_nil_r.
Qed.

(** X6 (padding round trip).  For a three-channel image, a configuration
    that passes the checks [inference] makes on the padded tensor and a
    model that scales, [upscale] returns an image whose height and width are
    exactly the original ones times the scale, with three channels, whatever
    padding was added (an output axis of length 1, which [squeeze] would
    drop, is excluded). *)
Theorem upscale_result_size {V} {SV : Scalar V} (img : ndarray Z)
        (model : Model V) (t : tensor V)
        (h w tile tile_overlap window_size scale : Z) :
  let T := clamp_tile tile (th t) (tw t) in
  nd_shape img = [h; w; 3] -> 0 <= h -> 0 <= w -> 0 < window_size ->
  pad_input img window_size = inr (t, h, w) ->
  0 <= T -> T mod window_size = 0 -> T - tile_overlap <> 0 ->
  0 <= scale -> scales model scale -> h * scale <> 1 -> w * scale <> 1 ->
  exists tr out,
    upscale img model tile tile_overlap window_size scale = (tr, inr out)
    /\ nd_shape out = [h * scale; w * scale; 3].
Proof.
  intros T Hshape Hh Hw Hws Hpad HT Hmod Hstride Hsf Hscales Hh1 Hw1.
  destruct (upscale_rgb_ok img model t h w tile tile_overlap window_size scale)
    as (tr & E & W & out & _ & Hup & Hshp & _); try assumption.
  exists tr, out. split; assumption.
Qed.

Lemma upscale_result_size_witness :
  exists tr out,
    upscale (V := xreal) (gradient_image 20 37 3) (nearest_model 4) 16 4 8 4
    = (tr, inr out)
    /\ nd_shape out = [80; 148; 3].
Proof.
  destruct (pad_input_size (V := xreal) (gradient_image 20 37 3) 20 37 3 8)
    as (t & Hpad & Hsize & _); [reflexivity | lia | lia | lia |].
  apply size_eq in Hsize. destruct Hsize as (_ & _ & Sh & Sw).
  change (th t = 24) in Sh. change (tw t = 40) in Sw.
  destruct (upscale_result_size (V := xreal) (gradient_image 20 37 3)
              (nearest_model 4) t 20 37 16 4 8 4)
    as (tr & out & Hup & Hshp);
    try exact Hpad; try reflexivity; try lia;
    try (rewrite Sh, Sw; vm_compute; congruence).
  - apply nearest_model_scales.
  - exists tr, out. split; [exact Hup | exact Hshp].
Defined.

(** X7 (crop and channel order).  Under the same conditions, the sample
    of the returned image at row [i], column [j], channel [k] is the
    clamped and quantised value [inference] returned at the same row and
    column of channel [2 - k]: the crop keeps the top-left corner in place
    and the three channels come back in reverse order. *)
Theorem upscale_pixels {V} {SV : Scalar V} (img : ndarray Z)
        (model : Model V) (t : tensor V)
        (h w tile tile_overlap window_size scale : Z) :
  let T := clamp_tile tile (th t) (tw t) in
  nd_shape img = [h; w; 3] -> 0 <= h -> 0 <= w -> 0 < window_size ->
  pad_input img window_size = inr (t, h, w) ->
  0 <= T -> T mod window_size = 0 -> T - tile_overlap <> 0 ->
  0 <= scale -> scales model scale -> h * scale <> 1 -> w * scale <> 1 ->
  exists tr o out,
    inference t model tile tile_overlap window_size scale = (tr, inr o)
    /\ upscale img model tile tile_overlap window_size scale = (tr, inr out)
    /\ forall i j k,
        nd_get out [i; j; k] = vquant (vclamp01 (tat o 0 (2 - k) i j)).
Proof.
  intros T Hshape Hh Hw Hws Hpad HT Hmod Hstride Hsf Hscales Hh1 Hw1.
  destruct (upscale_rgb_ok img model t h w tile tile_overlap window_size scale)
    as (tr & E & W & out & Hacc & Hup & _ & Hget); try assumption.
  exists tr, (div_ E W), out.
  split; [now apply inference_of_acc |]. split; assumption.
Qed.

Lemma upscale_pixels_witness :
  exists t tr o out,
    pad_input (V := xreal) (gradient_image 20 37 3) 8 = inr (t, 20, 37)
    /\ inference t (nearest_model 4) 16 4 8 4 = (tr, inr o)
    /\ upscale (gradient_image 20 37 3) (nearest_model 4) 16 4 8 4
       = (tr, inr out)
    /\ nd_get out [5; 6; 0] = vquant (vclamp01 (tat o 0 2 5 6)).
Proof.
  destruct (pad_input_size (V := xreal) (gradient_image 20 37 3) 20 37 3 8)
    as (t & Hpad & Hsize & _); [reflexivity | lia | lia | lia |].
  apply size_eq in Hsize. destruct Hsize as (_ & _ & Sh & Sw).
  change (th t = 24) in Sh. change (tw t = 40) in Sw.
  destruct (upscale_pixels (V := xreal) (gradient_image 20 37 3)
              (nearest_model 4) t 20 37 16 4 8 4)
    as (tr & o & out & Hinf & Hup & Hget);
    try exact Hpad; try reflexivity; try lia;
    try (rewrite Sh, Sw; vm_compute; congruence).
  - apply nearest_model_scales.
  - exists t, tr, o, out. split; [exact Hpad |]. split; [exact Hinf |].
    split; [exact Hup |]. apply (Hget 5 6 0).
Defined.

(** ** Tiling under a sample-by-sample model *)

Lemma pointwise_model_scales {V} {SV : Scalar V} (g : V -> V) sf :
  scales (pointwise_model g sf) sf.
Proof. intros p. eexists. split; reflexivity. Qed.

(** With no overlap on axes that are whole numbers of tiles long, the value
    returned at a position is what the model returned for the one tile
    holding it. *)
Lemma no_overlap_value {V} {SV : Scalar V} (img : tensor V) (model : Model V)
      (tile window_size scale : Z) :
  let T := clamp_tile tile (th img) (tw img) in
  add_zero_neutral V -> div_one_neutral V ->
  wf_tensor img -> scales model scale -> 0 < scale ->
  0 < T -> (T | th img) -> (T | tw img) -> (window_size | T) ->
  exists tr E W,
    inference_acc img model tile 0 window_size scale = (tr, inr (E, W))
    /\ forall n c i j,
        0 <= n < tb img -> 0 <= c < tc img ->
        0 <= i < th img * scale -> 0 <= j < tw img * scale ->
        let o := (i / scale / T * T, j / scale / T * T) in
        fits img T o
        /\ in_region T scale o i j = true
        /\ tat (div_ E W) n c i j
           = tat (model_out model img T o) n c
                 (i - fst o * scale) (j - snd o * scale).
Proof.
  intros T Hadd Hdiv1 (Hb & Hc & _ & _) Hscales Hsf HT HdH HdW Hdiv.
  destruct (divides_mod window_size T) as [Hws Hmod]; [lia | assumption |].
  destruct (inference_acc_ok img model tile 0 window_size scale)
    as (hl & wl & E & W & Hhl & Hwl & _ & _ & Hfit & Hacc & _ & _ & HWat & HEat);
    try assumption; fold T; try lia.
  fold T in Hhl, Hwl, Hacc, HWat, HEat, Hfit.
  assert (HTH : T <= th img) by (unfold T, clamp_tile; lia).
  assert (HTW : T <= tw img) by (unfold T, clamp_tile; lia).
  replace (T - 0) with T in Hhl, Hwl by lia.
  eexists. exists E, W. split; [exact Hacc |].
  intros n c i j Hn Hch Hi Hj o.
  assert (Ho : only_one (fun o => in_region T scale o i j) (list_prod hl wl) o).
  { apply only_one_ext with (p := fun o => in_tile T o (i / scale) (j / scale)).
    - intros o'. symmetry. now apply in_region_tile.
    - apply (exact_schedule_only_one (th img) (tw img)); try assumption;
        try lia; apply scaled_range; lia. }
  assert (Hfo : fits img T o).
  { rewrite Forall_forall in Hfit. apply Hfit. apply Ho. }
  assert (Hin : in_region T scale o i j = true) by apply Ho.
  split; [assumption |]. split; [assumption |].
  unfold div_. cbn [tat]. rewrite HWat, HEat. unfold weight_after, sum_after.
  rewrite (fold_only_one origin_eq_dec _ (fun acc _ => vadd acc vone) _ _ _ Ho).
  rewrite (fold_only_one origin_eq_dec _
             (fun acc o => vadd acc (tat_b (model_out model img T o) n c
                                       (i - fst o * scale) (j - snd o * scale)))
             _ _ _ Ho).
  rewrite !Hadd, Hdiv1.
  apply (tat_b_model_out img model T scale); try assumption. lia.
Qed.

(** What a sample-by-sample model returned for a tile, read at a position
    of the tile's region. *)
Lemma pointwise_out_value {V} {SV : Scalar V} (img : tensor V) (g : V -> V)
      T sf o n c i j :
  0 < sf -> 0 <= T -> fits img T o ->
  tat (model_out (pointwise_model g sf) img T o) n c
      (i - fst o * sf) (j - snd o * sf)
  = g (tat img n c (i / sf) (j / sf)).
Proof.
  intros Hsf HT (F1 & F2 & F3 & F4). destruct o as [r c0]. cbn [fst snd] in *.
  unfold model_out, pointwise_model, slice23. cbn [fst snd tat th tw].
  rewrite !slice_norm_inside by lia.
  f_equal. f_equal.
  - replace (i - r * sf) with (i + (- r) * sf) by ring.
    rewrite Z.div_add by lia. lia.
  - replace (j - c0 * sf) with (j + (- c0) * sf) by ring.
    rewrite Z.div_add by lia. lia.
Qed.

(** X8 (tiling is transparent).  When the model maps every sample through
    one function and replicates it [scale] times, [inference] with no
    overlap, on axes that are whole numbers of tiles long, returns at every
    position the function applied to the sample of the image the position is
    scaled from: cutting the image into tiles changes nothing. *)
Theorem tiling_transparent {V} {SV : Scalar V} (img : tensor V) (g : V -> V)
        (tile window_size scale : Z) :
  let T := clamp_tile tile (th img) (tw img) in
  add_zero_neutral V -> div_one_neutral V ->
  wf_tensor img -> 0 < scale ->
  0 < T -> (T | th img) -> (T | tw img) -> (window_size | T) ->
  exists tr out,
    inference img (pointwise_model g scale) tile 0 window_size scale
    = (tr, inr out)
    /\ forall n c i j,
        0 <= n < tb img -> 0 <= c < tc img ->
        0 <= i < th img * scale -> 0 <= j < tw img * scale ->
        tat out n c i j = g (tat img n c (i / scale) (j / scale)).
Proof.
  intros T Hadd Hdiv1 Hwf Hsf HT HdH HdW Hdiv.
  destruct (no_overlap_value img (pointwise_model g scale) tile window_size scale)
    as (tr & E & W & Hacc & Hval); try assumption;
    [apply pointwise_model_scales |].
  exists tr, (div_ E W). split; [now apply inference_of_acc |].
  intros n c i j Hn Hc Hi Hj.
  destruct (Hval n c i j Hn Hc Hi Hj) as (Hfit & _ & ->).
  apply pointwise_out_value; [assumption | lia | exact Hfit].
Qed.

Lemma tiling_transparent_witness :
  exists tr out,
    inference (ramp_tensor (V := xreal) 3 16 24) (pointwise_model vclamp01 4)
              8 0 8 4 = (tr, inr out)
    /\ tat out 0 1 37 90 = vclamp01 (tat (ramp_tensor 3 16 24) 0 1 9 22).
Proof.
  destruct (tiling_transparent (ramp_tensor (V := xreal) 3 16 24) vclamp01 8 8 4)
    as (tr & out & Hinf & Hval).
  - exact xreal_add_zero_neutral.
  - exact xreal_div_one_neutral.
  - unfold wf_tensor. simpl. lia.
  - lia.
  - vm_compute. reflexivity.
  - exists 2. reflexivity.
  - exists 3. reflexivity.
  - exists 1. reflexivity.
  - exists tr, out. split; [exact Hinf |]. apply (Hval 0 1 37 90); simpl; lia.
Defined.

(** ** End to end *)




(** ** When the model or torch raises *)

(** [inference] up to the loops, for a configuration that passes its
    checks: two allocations, then whatever the loops do. *)
Lemma inference_acc_loops {V} {SV : Scalar V} (img : tensor V) (model : Model V)
      (tile tile_overlap window_size scale : Z) hl wl :
  let T := clamp_tile tile (th img) (tw img) in
  let E0 := mk_tensor (tb img) (tc img) (th img * scale) (tw img * scale)
                      (fun _ _ _ _ => vzero : V) in
  0 <= tb img -> 0 <= tc img -> 0 <= th img * scale -> 0 <= tw img * scale ->
  window_size <> 0 -> T mod window_size = 0 ->
  idx_list (th img) T (T - tile_overlap) = inr hl ->
  idx_list (tw img) T (T - tile_overlap) = inr wl ->
  inference_acc img model tile tile_overlap window_size scale
  = (EvAlloc (buf_size img scale) :: EvAlloc (buf_size img scale)
       :: fst (foldM (tile_step img model T scale) (list_prod hl wl) (E0, E0)),
     snd (foldM (tile_step img model T scale) (list_prod hl wl) (E0, E0))).
Proof.
  intros T E0 Hb Hc Hh Hw Hws Hmod Hhl Hwl.
  unfold inference_acc, size. fold (clamp_tile tile (th img) (tw img)). fold T.
  unfold py_mod. destruct (Z.eqb_spec window_size 0); [contradiction |].
  rewrite bind_lift_inr, Hmod. simpl py_assert. rewrite bind_ret_l.
  rewrite Hhl, bind_lift_inr, Hwl, bind_lift_inr.
  rewrite zeros_ok by assumption. fold E0.
  cbn [bind zeros_like log ret app].
  change (mk_tensor (tb E0) (tc E0) (th E0) (tw E0) (fun _ _ _ _ => vzero))
    with E0.
  unfold accumulate. rewrite (foldM_nested (tile_step img model T scale)).
  destruct (foldM (tile_step img model T scale) (list_prod hl wl) (E0, E0))
    as [t r]. reflexivity.
Qed.

Lemma inference_error_of_acc {V} {SV : Scalar V} (img : tensor V) model
      tile tile_overlap window_size scale tr e :
  inference_acc img model tile tile_overlap window_size scale = (tr, inl e) ->
  inference img model tile tile_overlap window_size scale = (tr, inl e).
Proof. intros H. unfold inference. now rewrite H. Qed.

(** The loop body reads the model at the tile's patch only. *)
Lemma tile_step_congr {V} {SV : Scalar V} (img : tensor V)
      (model model' : Model V) T sf st o :
  model (slice23 img (fst o) (fst o + T) (snd o) (snd o + T))
  = model' (slice23 img (fst o) (fst o + T) (snd o) (snd o + T)) ->
  tile_step img model T sf st o = tile_step img model' T sf st o.
Proof.
  intros H. destruct st as [E W], o as [r c]. cbn [fst snd] in H.
  unfold tile_step. rewrite !bind_log. now rewrite H.
Qed.

Lemma tile_step_raises {V} {SV : Scalar V} (img : tensor V) (model : Model V)
      T sf E W o e :
  0 <= T -> fits img T o ->
  model (slice23 img (fst o) (fst o + T) (snd o) (snd o + T)) = inl e ->
  tile_step img model T sf (E, W) o
  = ([EvModel (tb img, tc img, T, T)], inl e).
Proof.
  intros HT Hfit Hm. pose proof (patch_size img T HT o Hfit) as Hp.
  destruct o as [r c]. cbn [fst snd] in *.
  unfold tile_step. rewrite bind_log, Hm, Hp. reflexivity.
Qed.

(** One iteration on a tile the model answers with a patch of the right
    size. *)
Lemma tile_step_local {V} {SV : Scalar V} (img : tensor V) (model : Model V)
      T sf E W o :
  0 <= T -> 0 <= sf ->
  size E = buf_size img sf -> size W = buf_size img sf ->
  fits img T o -> scales_at model img T sf o ->
  exists E' W',
    tile_step img model T sf (E, W) o
    = ([EvModel (tb img, tc img, T, T)], inr (E', W'))
    /\ size E' = buf_size img sf /\ size W' = buf_size img sf.
Proof.
  intros HT Hsf HE HW Hfit (q & Hq & Hsz).
  set (model' := fun p : tensor V =>
                   inr (mk_tensor (tb p) (tc p) (th p * sf) (tw p * sf) (tat q))
                   : exn + tensor V).
  assert (Hscales : scales model' sf).
  { intros p. eexists. split; reflexivity. }
  assert (Heq : model (slice23 img (fst o) (fst o + T) (snd o) (snd o + T))
                = model' (slice23 img (fst o) (fst o + T) (snd o) (snd o + T))).
  { rewrite Hq. unfold model'.
    pose proof (patch_size img T HT o Hfit) as Hp. apply size_eq in Hp.
    destruct Hp as (-> & -> & -> & ->).
    apply size_eq in Hsz. destruct Hsz as (Qb & Qc & Qh & Qw).
    destruct q as [qb qc qh qw qf]. cbn [tb tc th tw tat] in *. now subst. }
  rewrite (tile_step_congr img model model' T sf (E, W) o Heq).
  destruct (tile_step_ok img model' T sf Hscales HT Hsf E W o HE HW Hfit)
    as (E' & W' & Hstep & HE' & HW' & _).
  exists E', W'. auto.
Qed.

(** The loops stop at the first tile on which the model raises. *)
Lemma tiles_abort {V} {SV : Scalar V} (img : tensor V) (model : Model V)
      T sf pre o post E W e :
  0 <= T -> 0 <= sf ->
  size E = buf_size img sf -> size W = buf_size img sf ->
  Forall (fits img T) pre -> Forall (scales_at model img T sf) pre ->
  fits img T o ->
  model (slice23 img (fst o) (fst o + T) (snd o) (snd o + T)) = inl e ->
  foldM (tile_step img model T sf) (pre ++ o :: post) (E, W)
  = (repeat (EvModel (tb img, tc img, T, T)) (List.length pre + 1), inl e).
Proof.
  intros HT Hsf HE HW Hfits Hsc Hfit Hm. revert E W HE HW.
  induction pre as [| a pre IH]; intros E W HE HW.
  - cbn [app List.length Nat.add repeat]. rewrite foldM_cons.
    now rewrite (tile_step_raises img model T sf E W o e).
  - inversion Hfits as [| ? ? Hfa Hfr]; subst.
    inversion Hsc as [| ? ? Hsa Hsr]; subst.
    destruct (tile_step_local img model T sf E W a HT Hsf HE HW Hfa Hsa)
      as (E1 & W1 & Hstep & HE1 & HW1).
    cbn [app List.length Nat.add repeat]. rewrite foldM_cons.
    rewrite (bind_ok _ _ _ _ _ _ Hstep (IH Hfr Hsr E1 W1 HE1 HW1)).
    reflexivity.
Qed.

(** X10 (a failing model call aborts the run).  For a configuration that
    passes the checks [inference] makes: if the model answers the tiles
    scheduled before some tile with patches of the right size and raises an
    exception on that tile, [inference] raises the same exception; the model
    has been called on that tile and the ones before it and on no later
    one, and no tensor is returned. *)
Theorem model_failure_aborts {V} {SV : Scalar V} (img : tensor V)
        (model : Model V) (tile tile_overlap window_size scale : Z)
        (hl wl : list Z) (pre post : list (Z * Z)) (o : Z * Z) (e : exn) :
  let T := clamp_tile tile (th img) (tw img) in
  wf_tensor img -> 0 <= scale -> 0 <= T ->
  window_size <> 0 -> T mod window_size = 0 -> T - tile_overlap <> 0 ->
  idx_list (th img) T (T - tile_overlap) = inr hl ->
  idx_list (tw img) T (T - tile_overlap) = inr wl ->
  list_prod hl wl = pre ++ o :: post ->
  Forall (scales_at model img T scale) pre ->
  model (slice23 img (fst o) (fst o + T) (snd o) (snd o + T)) = inl e ->
  inference img model tile tile_overlap window_size scale
  = (EvAlloc (buf_size img scale) :: EvAlloc (buf_size img scale)
       :: repeat (EvModel (tb img, tc img, T, T)) (List.length pre + 1),
     inl e).
Proof.
  intros T (Hb & Hc & Hh & Hw) Hsf HT Hws Hmod Hstride Hhl Hwl Hsplit Hpre Hm.
  assert (HTh : T <= th img) by (unfold T, clamp_tile; lia).
  assert (HTw : T <= tw img) by (unfold T, clamp_tile; lia).
  assert (Hfit : Forall (fits img T) (list_prod hl wl)).
  { destruct (idx_list_bounds (th img) T (T - tile_overlap) Hstride HTh HT)
      as (hl' & Hhl' & _ & Hhfit).
    destruct (idx_list_bounds (tw img) T (T - tile_overlap) Hstride HTw HT)
      as (wl' & Hwl' & _ & Hwfit).
    rewrite Hhl in Hhl'. injection Hhl' as <-.
    rewrite Hwl in Hwl'. injection Hwl' as <-.
    pose proof (Forall_list_prod _ _ hl wl Hhfit Hwfit) as HF.
    eapply Forall_impl; [| exact HF]. intros x Hx. unfold fits. simpl in Hx. lia. }
  rewrite Hsplit in Hfit. apply Forall_app in Hfit. destruct Hfit as [Hfpre Hfo].
  inversion Hfo as [| ? ? Hfo1 _]; subst.
  apply inference_error_of_acc.
  rewrite (inference_acc_loops img model tile tile_overlap window_size scale
             hl wl) by (assumption || nia).
  fold T. rewrite Hsplit.
  rewrite (tiles_abort img model T scale pre o post _ _ e);
    try assumption; reflexivity.
Qed.

Lemma model_failure_aborts_witness :
  inference (ramp_tensor (V := xreal) 3 16 16) failing_model 8 0 8 4
  = ([EvAlloc (1, 3, 64, 64); EvAlloc (1, 3, 64, 64); EvModel (1, 3, 8, 8)],
     inl ModelError).
Proof.
  apply (model_failure_aborts (ramp_tensor (V := xreal) 3 16 16) failing_model
           8 0 8 4 [0; 8] [0; 8] [] [(0, 8); (8, 0); (8, 8)] (0, 0) ModelError).
  - unfold wf_tensor. simpl. lia.
  - lia.
  - vm_compute. congruence.
  - lia.
  - reflexivity.
  - vm_compute. congruence.
  - reflexivity.
  - reflexivity.
  - reflexivity.
  - constructor.
  - reflexivity.
Defined.

(** X11 (a patch of the wrong size).  For a configuration that passes the
    checks [inference] makes: if the model answers every tile-sized patch
    with a tensor whose height is neither the tile size times the scale nor
    1, the
    first in-place addition cannot broadcast and raises RuntimeError; the
    model has then been called exactly once and nothing is returned. *)
Theorem wrong_patch_size_raises {V} {SV : Scalar V} (img : tensor V)
        (model : Model V) (tile tile_overlap window_size scale : Z) :
  let T := clamp_tile tile (th img) (tw img) in
  wf_tensor img -> 0 <= scale -> 0 <= T ->
  window_size <> 0 -> T mod window_size = 0 -> T - tile_overlap <> 0 ->
  (forall p, size p = (tb img, tc img, T, T) ->
             exists q, model p = inr q /\ th q <> T * scale /\ th q <> 1) ->
  inference img model tile tile_overlap window_size scale
  = ([EvAlloc (buf_size img scale); EvAlloc (buf_size img scale);
      EvModel (tb img, tc img, T, T)], inl RuntimeError).
Proof.
  intros T (Hb & Hc & Hh & Hw) Hsf HT Hws Hmod Hstride Hbad.
  assert (HTh : T <= th img) by (unfold T, clamp_tile; lia).
  assert (HTw : T <= tw img) by (unfold T, clamp_tile; lia).
  destruct (idx_list_bounds (th img) T (T - tile_overlap) Hstride HTh HT)
    as (hl & Hhl & Hhne & Hhfit).
  destruct (idx_list_bounds (tw img) T (T - tile_overlap) Hstride HTw HT)
    as (wl & Hwl & Hwne & Hwfit).
  destruct hl as [| r hl]; [contradiction |].
  destruct wl as [| c wl]; [contradiction |].
  inversion Hhfit as [| ? ? Hr _]; subst.
  inversion Hwfit as [| ? ? Hc0 _]; subst.
  assert (Hfit : fits img T (r, c)) by (unfold fits; simpl; lia).
  apply inference_error_of_acc.
  rewrite (inference_acc_loops img model tile tile_overlap window_size scale
             (r :: hl) (c :: wl)) by (assumption || nia).
  fold T. cbn [list_prod map app]. rewrite foldM_cons.
  set (E0 := mk_tensor (tb img) (tc img) (th img * scale) (tw img * scale)
                       (fun _ _ _ _ => vzero : V)).
  assert (Hstep : tile_step img model T scale (E0, E0) (r, c)
                  = ([EvModel (tb img, tc img, T, T)], inl RuntimeError)).
  { pose proof (patch_size img T HT (r, c) Hfit) as Hp. cbn [fst snd] in Hp.
    destruct (Hbad (slice23 img r (r + T) c (c + T)) Hp) as (q & Hq & Hq1 & Hq2).
    unfold tile_step. rewrite bind_log, Hq, bind_lift_inr, Hp.
    assert (Hadd : add_region E0 (r * scale) ((r + T) * scale)
                     (c * scale) ((c + T) * scale) q = inl RuntimeError).
    { unfold add_region. cbv zeta. cbn [th tw tb tc E0].
      assert (Hr0 : 0 <= r * scale <= (r + T) * scale) by nia.
      assert (Hr1 : (r + T) * scale <= th img * scale)
        by (apply Z.mul_le_mono_nonneg_r; lia).
      rewrite !(slice_norm_inside (r * scale)),
              !(slice_norm_inside ((r + T) * scale)) by lia.
      replace (Z.max 0 ((r + T) * scale - r * scale)) with (T * scale) by nia.
      assert (Hb3 : bcast_ok (th q) (T * scale) = false).
      { unfold bcast_ok. apply orb_false_iff. split; now apply Z.eqb_neq. }
      rewrite Hb3. now rewrite andb_false_r. }
    rewrite Hadd. reflexivity. }
  rewrite Hstep. reflexivity.
Qed.

Lemma wrong_patch_size_raises_witness :
  inference (ramp_tensor (V := xreal) 3 16 16) identity_model 8 0 8 4
  = ([EvAlloc (1, 3, 64, 64); EvAlloc (1, 3, 64, 64); EvModel (1, 3, 8, 8)],
     inl RuntimeError).
Proof.
  apply (wrong_patch_size_raises (ramp_tensor (V := xreal) 3 16 16)
           identity_model 8 0 8 4).
  - unfold wf_tensor. simpl. lia.
  - lia.
  - vm_compute. congruence.
  - lia.
  - reflexivity.
  - vm_compute. congruence.
  - intros p Hp. exists p. split; [reflexivity |].
    apply size_eq in Hp. destruct Hp as (_ & _ & -> & _).
    vm_compute. split; congruence.
Defined.

(** X12 (a negative scale).  With a negative scale and a non-empty padded
    tensor, a configuration that passes the tile-size assertion and has a
    non-zero stride fails at [torch.zeros], whose size would be negative:
    RuntimeError, with nothing allocated and the model never called. *)
Theorem negative_scale_raises {V} {SV : Scalar V} (img : tensor V)
        (model : Model V) (tile tile_overlap window_size scale : Z) :
  let T := clamp_tile tile (th img) (tw img) in
  window_size <> 0 -> T mod window_size = 0 -> T - tile_overlap <> 0 ->
  scale < 0 -> 0 < th img \/ 0 < tw img ->
  inference img model tile tile_overlap window_size scale
  = ([], inl RuntimeError).
Proof.
  intros T Hws Hmod Hstride Hsf Hpos.
  apply inference_error_of_acc.
  unfold inference_acc, size. fold (clamp_tile tile (th img) (tw img)). fold T.
  unfold py_mod. destruct (Z.eqb_spec window_size 0); [contradiction |].
  rewrite bind_lift_inr, Hmod. simpl py_assert. rewrite bind_ret_l.
  rewrite !idx_list_unfold by assumption. rewrite !bind_lift_inr.
  unfold zeros.
  assert (Hneg : ((tb img <? 0) || (tc img <? 0) || (th img * scale <? 0)
                  || (tw img * scale <? 0)) = true).
  { destruct Hpos as [Hp | Hp].
    - assert (Hlt : (th img * scale <? 0) = true) by (apply Z.ltb_lt; nia).
      rewrite Hlt. now rewrite orb_true_r.
    - assert (Hlt : (tw img * scale <? 0) = true) by (apply Z.ltb_lt; nia).
      rewrite Hlt. now rewrite orb_true_r. }
  rewrite Hneg. reflexivity.
Qed.

Lemma negative_scale_raises_witness :
  inference (ramp_tensor (V := xreal) 3 16 16) (nearest_model 4) 8 0 8 (-4)
  = ([], inl RuntimeError).
Proof.
  apply (negative_scale_raises (ramp_tensor (V := xreal) 3 16 16)
           (nearest_model 4) 8 0 8 (-4)).
  - lia.
  - reflexivity.
  - vm_compute. congruence.
  - lia.
  - left. simpl. lia.
Defined.

(** ** A negative overlap *)

(** X13 (a negative overlap leaves gaps).  With a negative overlap the
    stride exceeds the tile size; on a padded tensor more than two tiles
    high, row [T] of the image lies in no scheduled tile, and [inference]
    returns zero divided by zero along the whole buffer row [T * scale],
    without raising. *)
Theorem negative_overlap_leaves_gap {V} {SV : Scalar V} (img : tensor V)
        (model : Model V) (tile tile_overlap window_size scale : Z) :
  let T := clamp_tile tile (th img) (tw img) in
  wf_tensor img -> scales model scale -> 0 < scale -> 0 < T ->
  window_size <> 0 -> T mod window_size = 0 ->
  tile_overlap < 0 -> 2 * T < th img ->
  exists hl wl tr out,
    idx_list (th img) T (T - tile_overlap) = inr hl
    /\ idx_list (tw img) T (T - tile_overlap) = inr wl
    /\ (forall o j, In o (list_prod hl wl) -> in_tile T o T j = false)
    /\ inference img model tile tile_overlap window_size scale = (tr, inr out)
    /\ forall n c j, tat out n c (T * scale) j = vdiv vzero vzero.
Proof.
  intros T (Hb & Hc & _ & _) Hscales Hsf HT Hws Hmod Hov Hbig.
  destruct (inference_acc_ok img model tile tile_overlap window_size scale)
    as (hl & wl & E & W & Hhl & Hwl & _ & _ & _ & Hacc & _ & _ & HWat & HEat);
    try assumption; try lia.
  fold T in Hhl, Hwl, Hacc, HWat, HEat.
  assert (Hgap : forall o j, In o (list_prod hl wl) -> in_tile T o T j = false).
  { intros [r c0] j Hin. apply in_prod_iff in Hin. destruct Hin as [Hr _].
    destruct (idx_list_pos (th img) T (T - tile_overlap)) as (l & Hl & Hchar);
      [lia |].
    rewrite Hhl in Hl. injection Hl as <-. apply Hchar in Hr.
    unfold in_tile. cbn [fst snd].
    destruct (Z.leb_spec r T), (Z.ltb_spec T (r + T)); try reflexivity.
    exfalso. destruct Hr as [(k & Hk & -> & _) | ->]; [| lia].
    assert (k = 0 \/ 1 <= k) as [-> | Hk1] by lia; [lia | nia]. }
  exists hl, wl. eexists. exists (div_ E W).
  split; [assumption |]. split; [assumption |]. split; [exact Hgap |].
  split; [apply inference_of_acc; exact Hacc |].
  intros n c j.
  assert (Hnone : forall o, In o (list_prod hl wl) ->
                            in_region T scale o (T * scale) j = false).
  { intros o Ho. rewrite in_region_tile by assumption.
    rewrite Z.div_mul by lia. now apply Hgap. }
  unfold div_. cbn [tat]. rewrite HWat, HEat. unfold weight_after, sum_after.
  rewrite (fold_none _ (fun acc _ => vadd acc vone)) by assumption.
  now rewrite (fold_none _
                 (fun acc o => vadd acc (tat_b (model_out model img T o) n c
                                           (T * scale - fst o * scale)
                                           (j - snd o * scale))))
    by assumption.
Qed.

Lemma negative_overlap_leaves_gap_witness :
  exists tr out,
    inference (ramp_tensor (V := xreal) 3 24 24) (nearest_model 4) 8 (-8) 8 4
    = (tr, inr out)
    /\ tat out 0 0 32 5 = NaN.
Proof.
  destruct (negative_overlap_leaves_gap (ramp_tensor (V := xreal) 3 24 24)
              (nearest_model 4) 8 (-8) 8 4)
    as (hl & wl & tr & out & _ & _ & _ & Hinf & Hval).
  - unfold wf_tensor. simpl. lia.
  - apply nearest_model_scales.
  - lia.
  - vm_compute. reflexivity.
  - lia.
  - reflexivity.
  - lia.
  - vm_compute. reflexivity.
  - exists tr, out. split; [exact Hinf |]. apply (Hval 0 0 5).
Defined.

(** ** The clamp of the tile size *)

(** X14 (a tile size above the image).  [upscale] reads the tile size only
    through its clamp to the padded height and width: every tile size at
    least as large as the smaller of the two gives the same run and the same
    result as that smaller dimension itself. *)
Theorem oversized_tile_is_clamped {V} {SV : Scalar V} (img : ndarray Z)
        (model : Model V) (t : tensor V)
        (h w tile tile_overlap window_size scale : Z) :
  pad_input img window_size = inr (t, h, w) ->
  Z.min (th t) (tw t) <= tile ->
  upscale img model tile tile_overlap window_size scale
  = upscale img model (Z.min (th t) (tw t)) tile_overlap window_size scale.
Proof.
  intros Hpad Hbig. unfold upscale. rewrite Hpad, !bind_lift_inr. cbv iota beta.
  assert (Hinf : inference t model tile tile_overlap window_size scale
                 = inference t model (Z.min (th t) (tw t)) tile_overlap
                             window_size scale).
  { unfold inference, inference_acc, size.
    replace (Z.min tile (Z.min (th t) (tw t))) with (Z.min (th t) (tw t)) by lia.
    replace (Z.min (Z.min (th t) (tw t)) (Z.min (th t) (tw t)))
      with (Z.min (th t) (tw t)) by lia.
    reflexivity. }
  now rewrite Hinf.
Qed.

Lemma oversized_tile_is_clamped_witness :
  upscale (V := xreal) (gradient_image 20 37 3) (nearest_model 4) 640 8 8 4
  = upscale (gradient_image 20 37 3) (nearest_model 4) 24 8 8 4.
Proof.
  apply (oversized_tile_is_clamped (V := xreal) (gradient_image 20 37 3)
           (nearest_model 4)
           (pad_reflect
              (mk_tensor 1 3 20 37
                 (fun _ ch i j =>
                    of_u8 (nd_get (gradient_image 20 37 3) [i; j; 3 - 1 - ch])))
              4 3)
           20 37 640 8 8 4).
  - reflexivity.
  - vm_compute. congruence.
Defined.

(** ** Which model files are downloaded *)

Lemma substring_skip (pre s : string) (n : nat) :
  substring (String.length pre) n (pre ++ s) = substring 0 n s.
Proof. induction pre as [| c pre IH]; simpl; [reflexivity | exact IH]. Qed.

Lemma contains_http_infix (pre post : string) :
  contains_http (pre ++ "http" ++ post) = true.
Proof.
  unfold contains_http.
  destruct (String.index 0 "http" (pre ++ "http" ++ post)) as [m |] eqn:Hidx;
    [reflexivity |].
  exfalso.
  apply (index_correct3 0 (String.length pre) "http" (pre ++ "http" ++ post));
    [assumption | discriminate | lia |].
  rewrite substring_skip. cbn. now destruct post.
Qed.

Lemma replace_spaces_no_space (s suffix : string) :
  no_space suffix = true -> no_space (replace_spaces s ++ suffix) = true.
Proof.
  intros Hsuf. induction s as [| c s IH]; simpl; [assumption |].
  rewrite IH, andb_true_r.
  destruct (Ascii.eqb c " "%char) eqn:Hc; [reflexivity | now rewrite Hc].
Qed.

Lemma replace_spaces_length (s suffix : string) :
  String.length (replace_spaces s ++ suffix)
  = (String.length s + String.length suffix)%nat.
Proof. induction s as [| c s IH]; simpl; [reflexivity | now rewrite IH]. Qed.

(** X15 (what counts as a URL).  A model path is treated as a URL as soon
    as the four characters "http" occur anywhere in it, a directory name
    included: [load_model] then never opens the path itself but whatever
    file the downloader names, and asks it to store the download in the
    model directory under the model name with every space replaced by an
    underscore and ".pth" appended, a name that contains no space. *)
Theorem http_anywhere_is_downloaded {V} {SV : Scalar V} (env : Env V)
        (self : UpscalerSwinIR) (pre post : string) :
  let path := (pre ++ "http" ++ post)%string in
  let dl_name := (replace_spaces (model_name self) ++ ".pth")%string in
  resolve_filename env self path
  = load_file_from_url env path (model_path self) dl_name
  /\ no_space dl_name = true
  /\ String.length dl_name = (String.length (model_name self) + 4)%nat.
Proof.
  intros path dl_name. split; [| split].
  - unfold resolve_filename. fold path.
    unfold path. now rewrite contains_http_infix.
  - apply replace_spaces_no_space. reflexivity.
  - apply replace_spaces_length.
Qed.

(** X16 (local paths are never downloaded).  For a path in which "http"
    does not occur, the file name is the path itself and the downloader has
    no part in the result: [load_model] returns the same thing whatever the
    downloader would have answered. *)
Theorem local_path_not_downloaded {V} {SV : Scalar V} (env : Env V)
        (self : UpscalerSwinIR) (path : string) (scale : Z)
        (dl : string -> string -> string -> exn + option string) :
  contains_http path = false ->
  resolve_filename env self path = inr (Some path)
  /\ load_model (with_downloader env dl) self path scale
     = load_model env self path scale.
Proof.
  intros Hlocal. unfold load_model, resolve_filename. rewrite Hlocal.
  split; reflexivity.
Qed.

Lemma local_path_not_downloaded_witness :
  resolve_filename (V := xreal) offline_env swinir_self "models/SwinIR/x4.pth"
  = inr (Some "models/SwinIR/x4.pth"%string).
Proof.
  apply (local_path_not_downloaded (V := xreal) offline_env swinir_self
           "models/SwinIR/x4.pth" 4 (fun _ _ _ => inl ModelError)).
  reflexivity.
Defined.

(** ** The list of scalers *)

Lemma init_scalers_fold (friendly_name : string -> string)
      (self : UpscalerSwinIR) (files : list string) (acc : list UpscalerData) :
  fold_left
    (fun scalers model =>
       let name := if contains_http model then model_name self
                   else friendly_name model in
       scalers ++ [mk_data name model self])
    files acc
  = acc ++ map (fun model =>
                  mk_data (if contains_http model then model_name self
                           else friendly_name model) model self) files.
Proof.
  revert acc. induction files as [| f files IH]; intros acc; simpl.
  - now rewrite app_nil_r.
  - rewrite IH, <- app_assoc. reflexivity.
Qed.

(** X17 (one scaler per model file).  [__init__] lists exactly one scaler
    per model file, in the order of the files and each pointing at its file
    and at the upscaler itself; a file whose path contains "http" is listed
    under the upscaler's model name, every other under its friendly name. *)
Theorem init_scalers_one_per_file (friendly_name : string -> string)
        (self : UpscalerSwinIR) (model_files : list string) :
  map data_path (init_scalers friendly_name self model_files) = model_files
  /\ List.length (init_scalers friendly_name self model_files)
     = List.length model_files
  /\ forall d, In d (init_scalers friendly_name self model_files) ->
               data_scaler d = self
               /\ data_name d = if contains_http (data_path d)
                                then model_name self
                                else friendly_name (data_path d).
Proof.
  unfold init_scalers. rewrite init_scalers_fold. cbn [app].
  split; [| split].
  - rewrite map_map. cbn [data_path]. apply map_id.
  - apply length_map.
  - intros d Hd. apply in_map_iff in Hd. destruct Hd as (f & <- & _).
    split; reflexivity.
Qed.

(** ** An image no larger than the tile *)

(** X18 (one tile for a square image that fits).  When the padded tensor is
    square, no larger than the requested tile size and a multiple of the
    window size, then for any overlap other than the side itself the whole
    tensor is the one scheduled tile: the model is called once, on all of
    it, and what [inference] returns is the model's answer, sample for
    sample. *)
Theorem fitting_image_is_one_tile {V} {SV : Scalar V} (img : tensor V)
        (model : Model V) (tile tile_overlap window_size scale : Z) :
  let H := th img in
  add_zero_neutral V -> div_one_neutral V ->
  wf_tensor img -> scales model scale -> 0 <= scale ->
  tw img = H -> 0 < H -> H <= tile -> (window_size | H) -> tile_overlap <> H ->
  exists out,
    inference img model tile tile_overlap window_size scale
    = ([EvAlloc (buf_size img scale); EvAlloc (buf_size img scale);
        EvModel (tb img, tc img, H, H)], inr out)
    /\ forall n c i j,
        0 <= n < tb img -> 0 <= c < tc img ->
        0 <= i < H * scale -> 0 <= j < H * scale ->
        tat out n c i j = tat (model_out model img H (0, 0)) n c i j.
Proof.
  intros H Hadd Hdiv1 (Hb & Hc & _ & _) Hscales Hsf Hsq HH Htile Hdiv Hov.
  assert (HT : clamp_tile tile (th img) (tw img) = H)
    by (unfold clamp_tile; fold H; lia).
  destruct (divides_mod window_size H) as [Hws Hmod]; [lia | assumption |].
  assert (Hidx : forall d, d = H -> idx_list d H (H - tile_overlap) = inr [0]).
  { intros d ->.
    destruct (Z.lt_trichotomy (H - tile_overlap) 0) as [Hn | [Hz | Hp]]; [| lia |].
    - rewrite idx_list_neg by lia. now rewrite Z.sub_diag.
    - rewrite idx_list_unfold by lia. rewrite Z.sub_diag.
      unfold range_len. destruct (Z.ltb_spec 0 (H - tile_overlap)); [| lia].
      reflexivity. }
  destruct (inference_acc_ok img model tile tile_overlap window_size scale)
    as (hl & wl & E & W & Hhl & Hwl & _ & _ & Hfit & Hacc & _ & _ & HWat & HEat);
    try assumption; rewrite ?HT; try lia.
  rewrite HT in Hhl, Hwl, Hacc, HWat, HEat, Hfit.
  rewrite (Hidx (th img) eq_refl) in Hhl. rewrite (Hidx (tw img) Hsq) in Hwl.
  injection Hhl as <-. injection Hwl as <-.
  cbn [list_prod map app] in Hacc, HWat, HEat, Hfit.
  inversion Hfit as [| ? ? Hfo _]; subst.
  exists (div_ E W). split; [apply inference_of_acc; exact Hacc |].
  intros n c i j Hn Hch Hi Hj.
  assert (Hin : in_region H scale (0, 0) i j = true).
  { unfold in_region. cbn [fst snd]. rewrite !Z.mul_0_l, !Z.add_0_l.
    destruct (Z.leb_spec 0 i), (Z.ltb_spec i (H * scale)),
      (Z.leb_spec 0 j), (Z.ltb_spec j (H * scale)); lia || reflexivity. }
  pose proof (tat_b_model_out img model H scale (0, 0) n c i j Hscales
                (Z.lt_le_incl _ _ HH) Hfo Hin Hn Hch) as Hread.
  cbn [fst snd] in Hread. rewrite !Z.mul_0_l, !Z.sub_0_r in Hread.
  unfold div_. cbn [tat]. rewrite HWat, HEat.
  unfold weight_after, sum_after. cbn [fold_left fst snd]. rewrite Hin.
  rewrite !Z.mul_0_l, !Z.sub_0_r. now rewrite !Hadd, Hdiv1, Hread.
Qed.

Lemma fitting_image_is_one_tile_witness :
  exists out,
    inference (ramp_tensor (V := xreal) 3 16 16) (nearest_model 4) 64 40 8 4
    = ([EvAlloc (1, 3, 64, 64); EvAlloc (1, 3, 64, 64); EvModel (1, 3, 16, 16)],
       inr out)
    /\ tat out 0 2 13 50
       = tat (model_out (nearest_model 4) (ramp_tensor 3 16 16) 16 (0, 0))
             0 2 13 50.
Proof.
  destruct (fitting_image_is_one_tile (ramp_tensor (V := xreal) 3 16 16)
              (nearest_model 4) 64 40 8 4) as (out & Hinf & Hval).
  - exact xreal_add_zero_neutral.
  - exact xreal_div_one_neutral.
  - unfold wf_tensor. simpl. lia.
  - apply nearest_model_scales.
  - lia.
  - reflexivity.
  - simpl. lia.
  - simpl. lia.
  - exists 2. reflexivity.
  - simpl. lia.
  - exists out. split; [exact Hinf |]. apply (Hval 0 2 13 50); simpl; lia.
Defined.

(** ** An output axis of length 1 *)

(** X19 (a one-row result is not returned).  When the upscaled height is
    exactly 1 and the upscaled width is more than 1, [inference] returns,
    and [squeeze] removes the row axis together with the batch axis; the
    array is then of rank 2 and shape (3, width), the channel reordering of
    lines 105-108 is skipped, and [Image.fromarray], which reads the array as
    an image 3 high and [width] wide with a third of the bytes that needs,
    raises ValueError: [upscale] returns no image. *)
Theorem one_row_result_loses_axis {V} {SV : Scalar V} (img : ndarray Z)
        (model : Model V) (t : tensor V)
        (h w tile tile_overlap window_size scale : Z) :
  let T := clamp_tile tile (th t) (tw t) in
  nd_shape img = [h; w; 3] -> 0 <= h -> 0 <= w -> 0 < window_size ->
  pad_input img window_size = inr (t, h, w) ->
  0 <= T -> T mod window_size = 0 -> T - tile_overlap <> 0 ->
  0 <= scale -> scales model scale -> h * scale = 1 -> 1 < w * scale ->
  exists tr o,
    inference t model tile tile_overlap window_size scale = (tr, inr o)
    /\ nd_shape (clamp_ (squeeze (slice23 o 0 (h * scale) 0 (w * scale))))
       = [3; w * scale]
    /\ upscale img model tile tile_overlap window_size scale
       = (tr, inl ValueError).
Proof.
  intros T Hshape Hh Hw Hws Hpad HT Hmod Hstride Hsf Hscales Hh1 Hw1.
  destruct (pad_input_size (V := V) img h w 3 window_size)
    as (t' & Hpad' & Hsize & Hth & Htw); try assumption.
  rewrite Hpad in Hpad'. injection Hpad' as <-.
  apply size_eq in Hsize. destruct Hsize as (Sb & Sc & _ & _).
  destruct (inference_acc_ok t model tile tile_overlap window_size scale)
    as (hl & wl & E & W & _ & _ & _ & _ & _ & Hacc & HE & _);
    try assumption; try lia.
  unfold buf_size in HE. apply size_eq in HE.
  destruct HE as (Eb & Ec & Eh & Ew). rewrite Sb in Eb. rewrite Sc in Ec.
  pose proof (inference_of_acc _ _ _ _ _ _ _ _ _ Hacc) as Hinf.
  assert (Hsq : nd_shape (clamp_ (squeeze (slice23 (div_ E W) 0 (h * scale)
                                                   0 (w * scale))))
                = [3; w * scale]).
  { unfold clamp_, squeeze, slice23, div_. cbn [nd_shape tb tc th tw].
    rewrite Eb, Ec, !slice_len_crop by (rewrite ?Eh, ?Ew; nia).
    rewrite Hh1. cbn [filter Z.eqb Pos.eqb negb].
    assert (Hw1' : (w * scale =? 1) = false) by (apply Z.eqb_neq; lia).
    rewrite Hw1'. reflexivity. }
  eexists. exists (div_ E W). split; [exact Hinf |]. split; [exact Hsq |].
  rewrite (upscale_after_inference img model t (div_ E W) h w _ _ _ _ _
             Hpad Hinf).
  f_equal. unfold chw_to_hwc. rewrite Hsq.
  unfold fromarray_rgb, to_uint8, decode_rgb. cbn [nd_shape]. rewrite Hsq.
  destruct (Z.eqb_spec (w * scale) 0); [lia |]. cbn [Z.eqb orb].
  destruct (Z.ltb_spec (3 * (w * scale)) (3 * (w * scale) * 3));
    [reflexivity | lia].
Qed.

Lemma one_row_result_loses_axis_witness :
  exists tr,
    upscale (V := xreal) (gradient_image 1 6 3) (nearest_model 1) 2 0 2 1
    = (tr, inl ValueError).
Proof.
  destruct (pad_input_size (V := xreal) (gradient_image 1 6 3) 1 6 3 2)
    as (t & Hpad & Hsize & _); [reflexivity | lia | lia | lia |].
  apply size_eq in Hsize. destruct Hsize as (_ & _ & Sh & Sw).
  change (th t = 2) in Sh. change (tw t = 8) in Sw.
  destruct (one_row_result_loses_axis (V := xreal) (gradient_image 1 6 3)
              (nearest_model 1) t 1 6 2 0 2 1)
    as (tr & o & _ & _ & Hup);
    try exact Hpad; try reflexivity; try lia;
    try (rewrite Sh, Sw; vm_compute; congruence).
  - apply nearest_model_scales.
  - exists tr. exact Hup.
Defined.

(** ** [do_upscale] with a model *)

(** X20 (a loaded model upscales four times).  For a local model file that
    exists and loads, a three-channel image, and option values that pass the
    checks [inference] makes on the tensor padded to a multiple of 8,
    [do_upscale] returns an image four times as high and four times as wide,
    provided the loaded model scales by four. *)
Theorem do_upscale_four_times {V} {SV : Scalar V} (env : Env V)
        (self : UpscalerSwinIR) (img : ndarray Z) (model_file : string)
        (model : Model V) (t : tensor V) (h w : Z) :
  let T := clamp_tile (SWIN_tile env) (th t) (tw t) in
  contains_http model_file = false ->
  path_exists env model_file = true ->
  load_net env model_file 4 = inr model -> scales model 4 ->
  nd_shape img = [h; w; 3] -> 0 <= h -> 0 <= w ->
  pad_input img 8 = inr (t, h, w) ->
  0 <= T -> T mod 8 = 0 -> T - SWIN_tile_overlap env <> 0 ->
  exists tr out,
    do_upscale env self img model_file = (tr, inr out)
    /\ nd_shape out = [h * 4; w * 4; 3].
Proof.
  intros T Hlocal Hexists Hload Hscales Hshape Hh Hw Hpad HT Hmod Hstride.
  destruct (upscale_rgb_ok img model t h w (SWIN_tile env)
              (SWIN_tile_overlap env) 8 4)
    as (tr & E & W & out & _ & Hup & Hshp & _); try assumption; try lia.
  exists tr, out. split; [| exact Hshp].
  unfold do_upscale, load_model, resolve_filename.
  rewrite Hlocal, Hexists, Hload. cbn [negb]. rewrite bind_lift_inr.
  exact Hup.
Qed.

Lemma do_upscale_four_times_witness :
  exists tr out,
    do_upscale (V := xreal)
      (mk_env xreal (fun _ _ _ => inr None) (fun _ => true)
              (fun _ scale => inr (nearest_model scale)) 64 8)
      swinir_self (gradient_image 20 37 3) "models/SwinIR/x4.pth"
    = (tr, inr out)
    /\ nd_shape out = [80; 148; 3].
Proof.
  destruct (pad_input_size (V := xreal) (gradient_image 20 37 3) 20 37 3 8)
    as (t & Hpad & Hsize & _); [reflexivity | lia | lia | lia |].
  apply size_eq in Hsize. destruct Hsize as (_ & _ & Sh & Sw).
  change (th t = 24) in Sh. change (tw t = 40) in Sw.
  destruct (do_upscale_four_times
              (mk_env xreal (fun _ _ _ => inr None) (fun _ => true)
                      (fun _ scale => inr (nearest_model scale)) 64 8)
              swinir_self (gradient_image 20 37 3) "models/SwinIR/x4.pth"
              (nearest_model 4) t 20 37)
    as (tr & out & Hup & Hshp);
    try exact Hpad; try reflexivity; try lia;
    try (cbn [SWIN_tile SWIN_tile_overlap]; rewrite Sh, Sw; vm_compute; congruence).
  - apply nearest_model_scales.
  - exists tr, out. split; [exact Hup | exact Hshp].
Defined.
